(** * align_elf_segments.py: patching p_align of the LOAD segments of an ELF file

    A shallow embedding of [src/android/app/align_elf_segments.py] and the
    properties of its one operation, [align_elf_load_segments].

    The file on disk is a list of bytes.  The open handle ([open(filepath,
    'r+b')]) is a record holding the bytes, the current position and a log of
    the calls of [f.write]; the Python code is written in a small state and
    exception monad over that record.  Integers are Python's unbounded
    integers, hence [Z].  Failures of the operating system (a file that cannot
    be opened, a disk that fills up) are outside the model: the file is taken
    to exist and to be readable and writable. *)

From Stdlib Require Import String Ascii.
From Stdlib Require Import ZArith List Lia Bool Sorted.
From Stdlib Require Import Strings.Byte.
Import ListNotations.

Local Close Scope string_scope.
Local Open Scope Z_scope.

(** ** Bytes and byte strings *)

Abbreviation byte := Byte.byte.

(** [elf_header[4]] on a [bytes] object yields an integer in [0, 255]. *)
Definition byte_val (b : byte) : Z := Z.of_N (Byte.to_N b).

Definition byte_of (z : Z) : byte :=
  match Byte.of_N (Z.to_N (z mod 256)) with
  | Some b => b
  | None => x00
  end.

Fixpoint bytes_eqb (a b : list byte) : bool :=
  match a, b with
  | [], [] => true
  | x :: a', y :: b' => Byte.eqb x y && bytes_eqb a' b'
  | _, _ => false
  end.

(** Python's [b[lo:hi]] for [0 <= lo <= hi]: never raises, may come out short. *)
Definition py_slice (b : list byte) (lo hi : nat) : list byte :=
  firstn (hi - lo) (skipn lo b).

(** The [n] bytes (or fewer, at the end of the data) found at offset [off]. *)
Definition bytes_at (c : list byte) (off : Z) (n : nat) : list byte :=
  firstn n (skipn (Z.to_nat off) c).

(** Writing [bs] at offset [off]: in place inside the file; past its end the
    file grows, and a gap is filled with zero bytes. *)
Definition write_at (c : list byte) (off : Z) (bs : list byte) : list byte :=
  let o := Z.to_nat off in
  firstn o c ++ repeat x00 (o - length c) ++ bs ++ skipn (o + length bs) c.

(** ** Exceptions *)

Inductive exn : Type :=
| IndexError      (* index out of range *)
| StructError     (* struct.error *)
| SeekError.      (* f.seek refused the offset: negative, or too large for
                     the offset type of the platform *)

Definition result (A : Type) : Type := (exn + A)%type.

(** ** The [struct] module, for the formats the script uses *)

Inductive byte_order : Type := LittleEndian | BigEndian.   (* '<' and '>' *)
Inductive fmt_code : Type := fmt_H | fmt_I | fmt_Q.

Definition struct_fmt : Type := (byte_order * fmt_code)%type.

Definition calcsize (f : struct_fmt) : nat :=
  match snd f with
  | fmt_H => 2
  | fmt_I => 4
  | fmt_Q => 8
  end%nat.

Fixpoint int_from_le (bs : list byte) : Z :=
  match bs with
  | [] => 0
  | b :: r => byte_val b + 256 * int_from_le r
  end.

Fixpoint int_to_le (n : nat) (v : Z) : list byte :=
  match n with
  | O => []
  | S k => byte_of v :: int_to_le k (v / 256)
  end.

Definition int_from_bytes (o : byte_order) (bs : list byte) : Z :=
  match o with
  | LittleEndian => int_from_le bs
  | BigEndian => int_from_le (rev bs)
  end.

Definition int_to_bytes (o : byte_order) (n : nat) (v : Z) : list byte :=
  match o with
  | LittleEndian => int_to_le n v
  | BigEndian => rev (int_to_le n v)
  end.

(** [struct.unpack(fmt, buf)[0]]: the buffer must have exactly the size of the
    format. *)
Definition unpack (f : struct_fmt) (buf : list byte) : result Z :=
  if Nat.eqb (length buf) (calcsize f)
  then inr (int_from_bytes (fst f) buf)
  else inl StructError.

(** [struct.pack(fmt, v)]: the value must fit the unsigned format. *)
Definition pack (f : struct_fmt) (v : Z) : result (list byte) :=
  if (0 <=? v) && (v <? 2 ^ (8 * Z.of_nat (calcsize f)))
  then inr (int_to_bytes (fst f) (calcsize f) v)
  else inl StructError.

(** ** [os.path.basename] and what the script prints *)

Fixpoint basename_from (acc p : string) : string :=
  match p with
  | EmptyString => acc
  | String c r =>
      if Ascii.eqb c "/"%char then basename_from EmptyString r
      else basename_from (String.append acc (String c EmptyString)) r
  end.

Definition basename (p : string) : string := basename_from EmptyString p.

Inductive message : Type :=
| NotAnElfFile (name : string)
| ErrorProcessing (name : string) (e : exn).

(** ** The open file and the monad of the script *)

Record handle : Type := mkHandle {
  content : list byte;            (* the bytes of the file *)
  position : Z;                   (* the stream position *)
  write_log : list (Z * list byte);  (* every f.write so far: offset, data *)
  stdout : list message
}.

Definition io (A : Type) : Type := handle -> result A * handle.

Definition ret {A} (a : A) : io A := fun h => (inr a, h).

Definition raise {A} (e : exn) : io A := fun h => (inl e, h).

Definition bind {A B} (m : io A) (k : A -> io B) : io B :=
  fun h =>
    match m h with
    | (inl e, h') => (inl e, h')
    | (inr a, h') => k a h'
    end.

Definition lift {A} (r : result A) : io A :=
  match r with
  | inl e => raise e
  | inr a => ret a
  end.

Declare Scope io_scope.
Delimit Scope io_scope with io.
Notation "x <- m ;; k" := (bind m (fun x => k))
  (at level 61, m at next level, right associativity) : io_scope.
Notation "m ;; k" := (bind m (fun _ => k))
  (at level 61, right associativity) : io_scope.
Local Open Scope io_scope.

(** The largest offset [f.seek] accepts: a larger one does not fit the offset
    type and raises an exception.  (A file system may refuse smaller offsets
    too; the read that follows a seek past the end of the file comes back
    empty and makes [struct.unpack] raise in any case.) *)
Definition off_max : Z := 2 ^ 63 - 1.

Definition f_read (n : nat) : io (list byte) :=
  fun h =>
    let bs := bytes_at (content h) (position h) n in
    (inr bs,
     mkHandle (content h) (position h + Z.of_nat (length bs))
              (write_log h) (stdout h)).

Definition f_seek (off : Z) : io unit :=
  fun h =>
    if off <? 0 then (inl SeekError, h)
    else if off_max <? off then (inl SeekError, h)
    else (inr tt, mkHandle (content h) off (write_log h) (stdout h)).

Definition f_write (bs : list byte) : io unit :=
  fun h =>
    (inr tt,
     mkHandle (write_at (content h) (position h) bs)
              (position h + Z.of_nat (length bs))
              (write_log h ++ [(position h, bs)])
              (stdout h)).

Definition print (m : message) : io unit :=
  fun h =>
    (inr tt,
     mkHandle (content h) (position h) (write_log h) (stdout h ++ [m])).

(** [b[i]] on a [bytes] object. *)
Definition index (b : list byte) (i : nat) : result Z :=
  match nth_error b i with
  | Some x => inr (byte_val x)
  | None => inl IndexError
  end.

(** [for i in range(n)], threading the variables the body assigns. *)
Fixpoint for_each {S} (l : list Z) (body : Z -> S -> io S) (s : S) : io S :=
  match l with
  | [] => ret s
  | i :: l' => s' <- body i s ;; for_each l' body s'
  end.

Definition range (n : Z) : list Z := map Z.of_nat (seq 0 (Z.to_nat n)).

(** ** The script *)

Definition elf_magic : list byte := [x7f; x45; x4c; x46].   (* b'\x7fELF' *)

Definition PT_LOAD : Z := 1.

(** What lines 34-73 compute from the header. *)
Record phdr_info : Type := mkInfo {
  is_64bit : bool;
  endian : byte_order;
  e_phoff : Z;
  e_phentsize : Z;
  e_phnum : Z;
  p_align_offset : Z;
  p_align_fmt : struct_fmt;
  p_align_size : nat
}.

Definition rbind {A B} (r : result A) (k : A -> result B) : result B :=
  match r with
  | inl e => inl e
  | inr a => k a
  end.

(** Lines 34-73: class, byte order and the program header table. *)
Definition read_header (elf_header : list byte) : result phdr_info :=
  rbind (index elf_header 4) (fun ei_class =>
  let is_64bit := ei_class =? 2 in
  rbind (index elf_header 5) (fun ei_data =>
  let is_little_endian := ei_data =? 1 in
  let endian := if is_little_endian then LittleEndian else BigEndian in
  if is_64bit then
    rbind (unpack (endian, fmt_Q) (py_slice elf_header 32 40)) (fun e_phoff =>
    rbind (unpack (endian, fmt_H) (py_slice elf_header 54 56)) (fun e_phentsize =>
    rbind (unpack (endian, fmt_H) (py_slice elf_header 56 58)) (fun e_phnum =>
    inr (mkInfo true endian e_phoff e_phentsize e_phnum
                48 (endian, fmt_Q) 8))))
  else
    rbind (unpack (endian, fmt_I) (py_slice elf_header 28 32)) (fun e_phoff =>
    rbind (unpack (endian, fmt_H) (py_slice elf_header 42 44)) (fun e_phentsize =>
    rbind (unpack (endian, fmt_H) (py_slice elf_header 44 46)) (fun e_phnum =>
    inr (mkInfo false endian e_phoff e_phentsize e_phnum
                28 (endian, fmt_I) 4)))))).

(** Lines 80-95: one round of the loop over the program headers. *)
Definition process_entry (hd : phdr_info) (page_size : Z)
    (i : Z) (modified : bool) : io bool :=
  let ph_offset := e_phoff hd + i * e_phentsize hd in
  f_seek ph_offset ;;
  buf <- f_read 4 ;;
  p_type <- lift (unpack (endian hd, fmt_I) buf) ;;
  if p_type =? PT_LOAD then
    f_seek (ph_offset + p_align_offset hd) ;;
    buf <- f_read (p_align_size hd) ;;
    current_align <- lift (unpack (p_align_fmt hd) buf) ;;
    if negb (current_align =? page_size) then
      f_seek (ph_offset + p_align_offset hd) ;;
      packed <- lift (pack (p_align_fmt hd) page_size) ;;
      f_write packed ;;
      ret true
    else ret modified
  else ret modified.

(** Lines 26-100: the body of the [with] block. *)
Definition align_body (filepath : string) (page_size : Z) : io bool :=
  elf_header <- f_read 64 ;;
  if negb (bytes_eqb (py_slice elf_header 0 4) elf_magic) then
    print (NotAnElfFile (basename filepath)) ;;
    ret false
  else
    hd <- lift (read_header elf_header) ;;
    modified <- for_each (range (e_phnum hd)) (process_entry hd page_size) false ;;
    if modified then ret true else ret true.

(** What a call leaves behind: the value returned, the bytes of the file, the
    writes that were made and the lines printed. *)
Record outcome : Type := mkOutcome {
  returned : bool;
  file_after : list byte;
  writes : list (Z * list byte);
  printed : list message
}.

(** Lines 12-104: the file is opened at position 0, and any exception is
    caught, reported and turned into [False]. *)
Definition align_elf_load_segments (filepath : string) (file : list byte)
    (page_size : Z) : outcome :=
  match align_body filepath page_size (mkHandle file 0 [] []) with
  | (inr b, h) => mkOutcome b (content h) (write_log h) (stdout h)
  | (inl e, h) =>
      mkOutcome false (content h) (write_log h)
                (stdout h ++ [ErrorProcessing (basename filepath) e])
  end.

(** ** The script seen from the bytes of the file

    The loop never relies on the stream position a round leaves behind (each
    round starts with a seek), so a round is a function of the bytes of the
    file.  The definitions below say which; they are proved equal to the
    monadic code in [process_entry_step] and [for_each_run]. *)

(** [f.seek(off)] followed by [struct.unpack(f, f.read(n))[0]]. *)
Definition read_at (c : list byte) (off : Z) (n : nat) (f : struct_fmt)
    : result Z :=
  if off <? 0 then inl SeekError
  else if off_max <? off then inl SeekError
  else unpack f (bytes_at c off n).

Definition ph_offset (hd : phdr_info) (i : Z) : Z :=
  e_phoff hd + i * e_phentsize hd.

(** Where the alignment field of entry [i] starts. *)
Definition align_pos (hd : phdr_info) (i : Z) : Z :=
  ph_offset hd i + p_align_offset hd.

Definition p_type_at (hd : phdr_info) (c : list byte) (i : Z) : result Z :=
  read_at c (ph_offset hd i) 4 (endian hd, fmt_I).

Definition p_align_at (hd : phdr_info) (c : list byte) (i : Z) : result Z :=
  read_at c (align_pos hd i) (p_align_size hd) (p_align_fmt hd).

(** One round: an exception, nothing to do, or one write. *)
Definition entry_step (hd : phdr_info) (page_size : Z) (c : list byte) (i : Z)
    : result (option (Z * list byte)) :=
  rbind (p_type_at hd c i) (fun p_type =>
  if p_type =? PT_LOAD then
    rbind (p_align_at hd c i) (fun current_align =>
    if negb (current_align =? page_size) then
      rbind (pack (p_align_fmt hd) page_size) (fun packed =>
      inr (Some (align_pos hd i, packed)))
    else inr None)
  else inr None).

(** The loop: whether it ran to its end, the bytes it leaves and its writes. *)
Fixpoint run_entries (hd : phdr_info) (page_size : Z) (l : list Z)
    (c : list byte) : bool * list byte * list (Z * list byte) :=
  match l with
  | [] => (true, c, [])
  | i :: l' =>
      match entry_step hd page_size c i with
      | inl _ => (false, c, [])
      | inr None => run_entries hd page_size l' c
      | inr (Some (off, bs)) =>
          let '(b, c', w) := run_entries hd page_size l' (write_at c off bs) in
          (b, c', (off, bs) :: w)
      end
  end.

(** The header the script works with, when the file has the magic number and
    lines 34-73 raise no exception. *)
Definition header_of (file : list byte) : option phdr_info :=
  let elf_header := bytes_at file 0 64 in
  if bytes_eqb (py_slice elf_header 0 4) elf_magic then
    match read_header elf_header with
    | inr hd => Some hd
    | inl _ => None
    end
  else None.

(** The part of an outcome the properties are about. *)
Definition effect (o : outcome) : bool * list byte * list (Z * list byte) :=
  (returned o, file_after o, writes o).

(** The bytes a round leaves, [None] when it raises. *)
Definition step_bytes (hd : phdr_info) (page_size : Z) (c : list byte) (i : Z)
    : option (list byte) :=
  match entry_step hd page_size c i with
  | inl _ => None
  | inr None => Some c
  | inr (Some (off, bs)) => Some (write_at c off bs)
  end.

(** Whether the loop ran to its end, and the bytes it leaves. *)
Definition run_result (hd : phdr_info) (page_size : Z) (l : list Z)
    (c : list byte) : bool * list byte :=
  fst (run_entries hd page_size l c).

(** ** Conditions on the layout of a file *)

(** The program header entries do not overlap: an entry is at least as long
    as the end of its alignment field (56 bytes for 64-bit, 32 for 32-bit). *)
Definition entries_disjoint (hd : phdr_info) : bool :=
  p_align_offset hd + Z.of_nat (p_align_size hd) <=? e_phentsize hd.

(** No alignment field lies in the 64 bytes the script reads as the header. *)
Definition table_after_header (hd : phdr_info) : bool :=
  64 <=? e_phoff hd + p_align_offset hd.

(** Position [p] of the file lies in the alignment field of entry [i]. *)
Definition in_align_field (hd : phdr_info) (i : Z) (p : nat) : Prop :=
  align_pos hd i <= Z.of_nat p
  < align_pos hd i + Z.of_nat (p_align_size hd).

(** The alignment fields of distinct entries do not overlap: an entry is at
    least as long as the field (8 bytes for 64-bit, 4 for 32-bit). *)
Definition align_fields_disjoint (hd : phdr_info) : bool :=
  Z.of_nat (p_align_size hd) <=? e_phentsize hd.

(** What every header that [read_header] returns satisfies. *)
Record wf_info (hd : phdr_info) : Prop := mkWf {
  wf_phoff : 0 <= e_phoff hd;
  wf_phentsize : 0 <= e_phentsize hd;
  wf_phnum : 0 <= e_phnum hd;
  wf_align_offset : 4 <= p_align_offset hd;
  wf_align_size : p_align_size hd = calcsize (p_align_fmt hd);
  wf_align_size_pos : (0 < p_align_size hd)%nat
}.

(** ** Sample files *)

Definition zeros (n : nat) : list byte := repeat x00 n.

Definition order_mark (o : byte_order) : byte :=
  match o with
  | LittleEndian => x01
  | BigEndian => x02
  end.

(** A 64-byte header of class 2 with the given program header table. *)
Definition header64 (o : byte_order) (phoff entsize num : Z) : list byte :=
  elf_magic ++ [x02; order_mark o] ++ zeros 26
  ++ int_to_bytes o 8 phoff ++ zeros 14
  ++ int_to_bytes o 2 entsize ++ int_to_bytes o 2 num ++ zeros 6.

(** A 52-byte header of class 1. *)
Definition header32 (o : byte_order) (phoff entsize num : Z) : list byte :=
  elf_magic ++ [x01; order_mark o] ++ zeros 22
  ++ int_to_bytes o 4 phoff ++ zeros 10
  ++ int_to_bytes o 2 entsize ++ int_to_bytes o 2 num ++ zeros 6.

(** Program header entries of 56 and of 32 bytes. *)
Definition entry64 (o : byte_order) (p_type p_align : Z) : list byte :=
  int_to_bytes o 4 p_type ++ zeros 44 ++ int_to_bytes o 8 p_align.

Definition entry32 (o : byte_order) (p_type p_align : Z) : list byte :=
  int_to_bytes o 4 p_type ++ zeros 24 ++ int_to_bytes o 4 p_align.

(** 64-bit, little-endian, three entries, the second one loadable with
    alignment 4096. *)
Definition sample64 : list byte :=
  header64 LittleEndian 64 56 3
  ++ entry64 LittleEndian 6 8
  ++ entry64 LittleEndian 1 4096
  ++ entry64 LittleEndian 4 4.

Definition sample64_info : phdr_info :=
  mkInfo true LittleEndian 64 56 3 48 (LittleEndian, fmt_Q) 8.

(** 32-bit, big-endian, two entries, the first one loadable. *)
Definition sample32 : list byte :=
  header32 BigEndian 52 32 2
  ++ entry32 BigEndian 1 4096
  ++ entry32 BigEndian 2 4.

Definition sample32_info : phdr_info :=
  mkInfo false BigEndian 52 32 2 28 (BigEndian, fmt_I) 4.

Definition lib_path : string := "app/build/lib/arm64-v8a/libapp.so"%string.

(** 64-bit, little-endian, two loadable entries only 4 bytes apart: their
    alignment fields, at offsets 112 and 116, overlap. *)
Definition overlap64 : list byte :=
  header64 LittleEndian 64 4 2
  ++ int_to_bytes LittleEndian 4 1 ++ int_to_bytes LittleEndian 4 1
  ++ zeros 52.

Definition overlap64_info : phdr_info :=
  mkInfo true LittleEndian 64 4 2 48 (LittleEndian, fmt_Q) 8.

(** The same layout with a second entry of type 0, whose alignment field
    holds a byte that is not zero. *)
Definition overlap64_null : list byte :=
  header64 LittleEndian 64 4 2
  ++ int_to_bytes LittleEndian 4 1 ++ int_to_bytes LittleEndian 4 0
  ++ zeros 44 ++ [xff] ++ zeros 7.

(** 32-bit, little-endian, one entry announced, at offset 14: its alignment
    field, at offset 42, is the pair of header fields e_phentsize and
    e_phnum.  Offset 46 holds what would be a second, loadable entry. *)
Definition header_overlap32 : list byte :=
  elf_magic ++ [x01; x01] ++ zeros 8
  ++ int_to_bytes LittleEndian 4 1 ++ zeros 10
  ++ int_to_bytes LittleEndian 4 14 ++ zeros 10
  ++ int_to_bytes LittleEndian 2 32 ++ int_to_bytes LittleEndian 2 1
  ++ int_to_bytes LittleEndian 4 1 ++ zeros 28.

(** Magic number followed by marker bytes 7 and 9 and by zeros. *)
Definition odd_markers : list byte := elf_magic ++ [x07; x09] ++ zeros 58.

(** The layout under which a second run finds the header the first one
    read: no alignment field of the table lies in the first 64 bytes. *)
Definition header_apart (file : list byte) : bool :=
  match header_of file with
  | Some hd => table_after_header hd
  | None => true
  end.

(** ** The write log and the entries that need a write *)


(** Entry [i] is loadable in [c] and its alignment is not the target. *)
Definition needs_write (hd : phdr_info) (page_size : Z) (c : list byte)
    (i : Z) : bool :=
  match p_type_at hd c i, p_align_at hd c i with
  | inr t, inr a => (t =? PT_LOAD) && negb (a =? page_size)
  | _, _ => false
  end.

(** What the script packs for the target. *)
Definition packed_target (hd : phdr_info) (page_size : Z) : list byte :=
  int_to_bytes (endian hd) (p_align_size hd) page_size.

(** ** The command line (lines 106-118)

    The script names its file by a path.  The disk is a map from paths to
    regular files and directories; [os.path.exists] and [open] are read
    against it.  Permissions and other failures of the operating system stay
    outside the model. *)

Inductive node : Type :=
| RegularFile (data : list byte)
| Directory.

Definition filesystem : Type := string -> option node.

Definition path_exists (fs : filesystem) (path : string) : bool :=
  match fs path with
  | Some _ => true
  | None => false
  end.

(** The disk after the file at [path] was closed with bytes [data]. *)
Definition fs_store (fs : filesystem) (path : string) (data : list byte)
    : filesystem :=
  fun q => if String.eqb q path then Some (RegularFile data) else fs q.

(** The exceptions of [open(filepath, 'r+b')]. *)
Inductive open_error : Type :=
| FileNotFoundError
| IsADirectoryError.

(** The lines the process prints. *)
Inductive line : Type :=
| UsageLine                                   (* line 108 *)
| FileNotFoundLine (path : string)            (* line 114 *)
| ScriptLine (m : message)                    (* lines 30 and 103 *)
| OpenErrorLine (name : string) (e : open_error).   (* line 103 *)

(** Lines 12-104 called on a path: [open] raises inside the [try] when the
    path is missing or a directory; otherwise the call works on the bytes of
    the file, which the disk holds when the file is closed. *)
Definition align_path (fs : filesystem) (filepath : string) (page_size : Z)
    : bool * filesystem * list line :=
  match fs filepath with
  | Some (RegularFile data) =>
      let o := align_elf_load_segments filepath data page_size in
      (returned o, fs_store fs filepath (file_after o),
       map ScriptLine (printed o))
  | Some Directory =>
      (false, fs, [OpenErrorLine (basename filepath) IsADirectoryError])
  | None =>
      (false, fs, [OpenErrorLine (basename filepath) FileNotFoundError])
  end.

(** The default of the parameter [page_size] (line 12). *)
Definition default_page_size : Z := 16384.

(** Lines 106-118: [sys.argv], the disk; the exit status, the disk and the
    lines printed. *)
Definition main (argv : list string) (fs : filesystem)
    : Z * filesystem * list line :=
  if (length argv <? 2)%nat then (1, fs, [UsageLine])
  else
    let filepath := nth 1 argv EmptyString in
    if negb (path_exists fs filepath) then
      (1, fs, [FileNotFoundLine filepath])
    else
      let '(success, fs', out) := align_path fs filepath default_page_size in
      (if success then 0 else 1, fs', out).

(** A disk with the two sample files and a directory. *)
Definition sample_disk : filesystem :=
  fun q =>
    if String.eqb q lib_path then Some (RegularFile sample64)
    else if String.eqb q "lib32.so"%string then Some (RegularFile sample32)
    else if String.eqb q "notes.txt"%string then Some (RegularFile (zeros 100))
    else if String.eqb q "app"%string then Some Directory
    else None.

Definition script_name : string := "align_elf_segments.py"%string.

(** * Properties *)

(** ** Bytes and integers *)

Section Codec.

Lemma byte_val_range (b : byte) : 0 <= byte_val b < 256.
Proof.
  unfold byte_val. pose proof (Byte.to_N_bounded b). lia.
Qed.

Lemma byte_val_of (z : Z) : byte_val (byte_of z) = z mod 256.
Proof.
  unfold byte_val, byte_of.
  assert (Hm : 0 <= z mod 256 < 256) by (apply Z.mod_pos_bound; lia).
  destruct (Byte.of_N (Z.to_N (z mod 256))) as [b|] eqn:E.
  - apply Byte.to_of_N in E. rewrite E. lia.
  - apply Byte.of_N_None_iff in E. lia.
Qed.

Lemma bytes_eqb_eq (a b : list byte) : bytes_eqb a b = true <-> a = b.
Proof.
  revert b. induction a as [|x a IH]; intros [|y b]; simpl; split;
    try congruence; try reflexivity.
  - intros H. apply andb_true_iff in H as [H1 H2].
    apply Byte.byte_dec_bl in H1. apply IH in H2. congruence.
  - intros H. injection H as -> ->. apply andb_true_iff. split.
    + now apply Byte.byte_dec_lb.
    + now apply IH.
Qed.

Lemma int_from_le_range (bs : list byte) :
  0 <= int_from_le bs < 256 ^ Z.of_nat (length bs).
Proof.
  induction bs as [|b r IH].
  - simpl. lia.
  - cbn [int_from_le length]. rewrite Nat2Z.inj_succ, Z.pow_succ_r by lia.
    pose proof (byte_val_range b). lia.
Qed.

Lemma length_int_to_le (n : nat) (v : Z) : length (int_to_le n v) = n.
Proof.
  revert v. induction n as [|n IH]; intros v; simpl; [reflexivity|].
  now rewrite IH.
Qed.

Lemma int_from_to_le (n : nat) (v : Z) :
  0 <= v < 256 ^ Z.of_nat n -> int_from_le (int_to_le n v) = v.
Proof.
  revert v. induction n as [|n IH]; intros v Hv.
  - simpl in *. lia.
  - rewrite Nat2Z.inj_succ, Z.pow_succ_r in Hv by lia.
    cbn [int_to_le int_from_le]. rewrite byte_val_of, IH.
    + pose proof (Z.div_mod v 256). lia.
    + split; [apply Z.div_pos; lia|].
      apply Z.div_lt_upper_bound; lia.
Qed.

Lemma width_pow (n : nat) : 2 ^ (8 * Z.of_nat n) = 256 ^ Z.of_nat n.
Proof.
  rewrite Z.pow_mul_r by lia. reflexivity.
Qed.

Lemma length_int_to_bytes (o : byte_order) (n : nat) (v : Z) :
  length (int_to_bytes o n v) = n.
Proof.
  destruct o; simpl; [|rewrite length_rev]; apply length_int_to_le.
Qed.

Lemma int_from_bytes_range (o : byte_order) (bs : list byte) :
  0 <= int_from_bytes o bs < 2 ^ (8 * Z.of_nat (length bs)).
Proof.
  rewrite width_pow. destruct o; simpl.
  - apply int_from_le_range.
  - rewrite <- (length_rev bs). apply int_from_le_range.
Qed.

Lemma int_from_to_bytes (o : byte_order) (n : nat) (v : Z) :
  0 <= v < 2 ^ (8 * Z.of_nat n) ->
  int_from_bytes o (int_to_bytes o n v) = v.
Proof.
  rewrite width_pow. intros Hv. destruct o; simpl.
  - now apply int_from_to_le.
  - rewrite rev_involutive. now apply int_from_to_le.
Qed.

(** A value that was unpacked fits the format. *)
Lemma unpack_range (f : struct_fmt) (buf : list byte) (v : Z) :
  unpack f buf = inr v -> 0 <= v < 2 ^ (8 * Z.of_nat (calcsize f)).
Proof.
  unfold unpack. destruct (Nat.eqb_spec (length buf) (calcsize f)) as [E|E];
    [|discriminate].
  intros H. injection H as <-. rewrite <- E. apply int_from_bytes_range.
Qed.

Lemma unpack_length (f : struct_fmt) (buf : list byte) (v : Z) :
  unpack f buf = inr v -> length buf = calcsize f.
Proof.
  unfold unpack. destruct (Nat.eqb_spec (length buf) (calcsize f));
    [trivial|discriminate].
Qed.

Lemma pack_length (f : struct_fmt) (v : Z) (bs : list byte) :
  pack f v = inr bs -> length bs = calcsize f.
Proof.
  unfold pack. destruct (_ && _); [|discriminate].
  intros H. injection H as <-. apply length_int_to_bytes.
Qed.

(** Unpacking what was packed gives the value back. *)
Lemma unpack_pack (f : struct_fmt) (v : Z) (bs : list byte) :
  pack f v = inr bs -> unpack f bs = inr v.
Proof.
  unfold pack. destruct (_ && _) eqn:E; [|discriminate].
  intros H. injection H as <-.
  unfold unpack. rewrite length_int_to_bytes, Nat.eqb_refl.
  f_equal. apply int_from_to_bytes.
  apply andb_true_iff in E as [E1 E2]. lia.
Qed.

(** A value outside the range of the format cannot be packed. *)
Lemma pack_out_of_range (f : struct_fmt) (v : Z) :
  ~ (0 <= v < 2 ^ (8 * Z.of_nat (calcsize f))) -> pack f v = inl StructError.
Proof.
  intros H. unfold pack.
  destruct (Z.leb_spec 0 v), (Z.ltb_spec v (2 ^ (8 * Z.of_nat (calcsize f))));
    simpl; try reflexivity. lia.
Qed.

(** And a value inside it can. *)
Lemma pack_in_range (f : struct_fmt) (v : Z) :
  0 <= v < 2 ^ (8 * Z.of_nat (calcsize f)) ->
  pack f v = inr (int_to_bytes (fst f) (calcsize f) v).
Proof.
  intros H. unfold pack.
  destruct (Z.leb_spec 0 v), (Z.ltb_spec v (2 ^ (8 * Z.of_nat (calcsize f))));
    simpl; try reflexivity; lia.
Qed.

End Codec.

(** ** Reading and writing at an offset *)

Section Bytes.

Lemma nth_error_bytes_at (c : list byte) (off : Z) (n i : nat) :
  nth_error (bytes_at c off n) i =
  if (i <? n)%nat then nth_error c (Z.to_nat off + i) else None.
Proof.
  unfold bytes_at. rewrite nth_error_firstn, nth_error_skipn. reflexivity.
Qed.

(** What is read at an offset depends on the bytes of that range only. *)
Lemma bytes_at_ext (c c' : list byte) (off : Z) (n : nat) :
  (forall p, (Z.to_nat off <= p < Z.to_nat off + n)%nat ->
             nth_error c' p = nth_error c p) ->
  bytes_at c' off n = bytes_at c off n.
Proof.
  intros H. apply nth_error_ext. intros i.
  rewrite !nth_error_bytes_at.
  destruct (Nat.ltb_spec i n); [|reflexivity].
  apply H. lia.
Qed.

Lemma length_bytes_at (c : list byte) (off : Z) (n : nat) :
  length (bytes_at c off n) = Nat.min n (length c - Z.to_nat off).
Proof.
  unfold bytes_at. now rewrite length_firstn, length_skipn.
Qed.

(** A read that comes back full lies inside the file. *)
Lemma bytes_at_full (c : list byte) (off : Z) (n : nat) :
  (0 < n)%nat -> length (bytes_at c off n) = n ->
  (Z.to_nat off + n <= length c)%nat.
Proof.
  rewrite length_bytes_at. lia.
Qed.

Lemma length_write_at (c : list byte) (off : Z) (bs : list byte) :
  (Z.to_nat off + length bs <= length c)%nat ->
  length (write_at c off bs) = length c.
Proof.
  intros H. unfold write_at.
  rewrite !length_app, length_firstn, repeat_length, length_skipn. lia.
Qed.

Lemma nth_error_write_at (c : list byte) (off : Z) (bs : list byte) (p : nat) :
  (Z.to_nat off + length bs <= length c)%nat ->
  nth_error (write_at c off bs) p =
  if ((Z.to_nat off <=? p) && (p <? Z.to_nat off + length bs))%nat
  then nth_error bs (p - Z.to_nat off)
  else nth_error c p.
Proof.
  intros H. unfold write_at.
  replace (Z.to_nat off - length c)%nat with 0%nat by lia. simpl.
  rewrite nth_error_app, length_firstn.
  replace (Nat.min (Z.to_nat off) (length c)) with (Z.to_nat off) by lia.
  destruct (Nat.ltb_spec p (Z.to_nat off)) as [Hp|Hp].
  - rewrite nth_error_firstn.
    destruct (Nat.ltb_spec p (Z.to_nat off)); [|lia].
    destruct (Nat.leb_spec (Z.to_nat off) p); [lia|]. reflexivity.
  - destruct (Nat.leb_spec (Z.to_nat off) p); [|lia]. simpl.
    rewrite nth_error_app.
    destruct (Nat.ltb_spec (p - Z.to_nat off) (length bs));
      destruct (Nat.ltb_spec p (Z.to_nat off + length bs)); try lia.
    + reflexivity.
    + rewrite nth_error_skipn. f_equal. lia.
Qed.

Lemma nth_error_write_at_outside (c : list byte) (off : Z) (bs : list byte)
    (p : nat) :
  (Z.to_nat off + length bs <= length c)%nat ->
  (p < Z.to_nat off \/ Z.to_nat off + length bs <= p)%nat ->
  nth_error (write_at c off bs) p = nth_error c p.
Proof.
  intros H Hp. rewrite nth_error_write_at by assumption.
  destruct (Nat.leb_spec (Z.to_nat off) p);
    destruct (Nat.ltb_spec p (Z.to_nat off + length bs)); simpl;
    try reflexivity. lia.
Qed.

(** Reading back what was just written. *)
Lemma bytes_at_write_at (c : list byte) (off : Z) (bs : list byte) :
  (Z.to_nat off + length bs <= length c)%nat ->
  bytes_at (write_at c off bs) off (length bs) = bs.
Proof.
  intros H. apply nth_error_ext. intros i.
  rewrite nth_error_bytes_at.
  destruct (Nat.ltb_spec i (length bs)) as [Hi|Hi].
  - rewrite nth_error_write_at by assumption.
    destruct (Nat.leb_spec (Z.to_nat off) (Z.to_nat off + i)); [|lia].
    destruct (Nat.ltb_spec (Z.to_nat off + i) (Z.to_nat off + length bs));
      [|lia].
    simpl. f_equal. lia.
  - symmetry. now apply nth_error_None.
Qed.

End Bytes.

(** Whether a read succeeds depends on the length of the file only. *)
Lemma read_at_length (c d : list byte) (off : Z) (n : nat) (f : struct_fmt)
    (v : Z) :
  length d = length c -> read_at c off n f = inr v ->
  exists v', read_at d off n f = inr v'.
Proof.
  intros Hlen. unfold read_at.
  destruct (off <? 0); [discriminate|].
  destruct (off_max <? off); [discriminate|].
  intros H. apply unpack_length in H. unfold unpack.
  rewrite length_bytes_at in *. rewrite Hlen, H, Nat.eqb_refl. eauto.
Qed.

(** ** The monadic code and its reading on bytes agree *)

Section Simulation.

Variables (hd : phdr_info) (page_size : Z).

Lemma process_entry_step (i : Z) (m : bool) (h : handle) :
  exists pos',
    process_entry hd page_size i m h =
    match entry_step hd page_size (content h) i with
    | inl e =>
        (inl e, mkHandle (content h) pos' (write_log h) (stdout h))
    | inr None =>
        (inr m, mkHandle (content h) pos' (write_log h) (stdout h))
    | inr (Some (off, bs)) =>
        (inr true,
         mkHandle (write_at (content h) off bs) pos'
                  (write_log h ++ [(off, bs)]) (stdout h))
    end.
Proof.
  destruct h as [c pos wl out].
  unfold process_entry, entry_step, p_type_at, p_align_at, align_pos,
    read_at, ph_offset, bind, f_seek, f_read, f_write, lift, ret, raise, rbind.
  cbn [content position write_log stdout].
  repeat match goal with
  | |- exists _, _ => solve [eexists; reflexivity]
  | |- context [if ?b then _ else _] => destruct b; cbn
  | |- context [match ?x with inl _ => _ | inr _ => _ end] => destruct x; cbn
  end.
Qed.

Lemma for_each_run (l : list Z) (m : bool) (h : handle) :
  exists r pos',
    for_each l (process_entry hd page_size) m h =
    (r, mkHandle (snd (fst (run_entries hd page_size l (content h)))) pos'
                 (write_log h ++ snd (run_entries hd page_size l (content h)))
                 (stdout h))
    /\ (if fst (fst (run_entries hd page_size l (content h)))
        then exists m', r = inr m' else exists e, r = inl e).
Proof.
  revert m h. induction l as [|i l IH]; intros m h.
  - destruct h as [c pos wl out]. cbn. rewrite app_nil_r.
    exists (inr m), pos. split; [reflexivity|]. now exists m.
  - cbn [for_each run_entries]. unfold bind.
    destruct (process_entry_step i m h) as [pos' E]. rewrite E.
    destruct (entry_step hd page_size (content h) i) as [e|[[off bs]|]].
    + cbn. rewrite app_nil_r. exists (inl e), pos'.
      split; [reflexivity|]. now exists e.
    + destruct (IH true (mkHandle (write_at (content h) off bs) pos'
                  (write_log h ++ [(off, bs)]) (stdout h)))
        as (r & pos'' & E' & Hr).
      cbn [content write_log stdout] in E', Hr.
      destruct (run_entries hd page_size l (write_at (content h) off bs))
        as [[b c'] w].
      cbn [fst snd] in *. exists r, pos''. split; [|exact Hr].
      rewrite E'. now rewrite <- app_assoc.
    + destruct (IH m (mkHandle (content h) pos' (write_log h) (stdout h)))
        as (r & pos'' & E' & Hr).
      cbn [content write_log stdout] in E', Hr.
      exists r, pos''. split; [exact E'|exact Hr].
Qed.

End Simulation.

Section TopLevel.

Variables (filepath : string) (file : list byte) (page_size : Z).

(** Without a usable header the call returns [False] and writes nothing. *)
Lemma effect_no_header :
  header_of file = None ->
  effect (align_elf_load_segments filepath file page_size) = (false, file, []).
Proof.
  unfold header_of, effect, align_elf_load_segments, align_body, bind, f_read,
    print, lift, ret, raise.
  cbn [content position write_log stdout].
  destruct (bytes_eqb _ _); cbn.
  - destruct (read_header _); [reflexivity|discriminate].
  - reflexivity.
Qed.

(** With a header the call is the loop over the entries. *)
Lemma effect_header (hd : phdr_info) :
  header_of file = Some hd ->
  effect (align_elf_load_segments filepath file page_size) =
  run_entries hd page_size (range (e_phnum hd)) file.
Proof.
  unfold header_of, effect, align_elf_load_segments, align_body, bind, f_read,
    print, lift, ret, raise.
  cbn [content position write_log stdout].
  destruct (bytes_eqb _ _); cbn; [|discriminate].
  destruct (read_header _) as [e|hd']; [discriminate|].
  intros H. injection H as ->.
  match goal with |- context [for_each ?l ?b ?m ?h] =>
    destruct (for_each_run hd page_size l m h) as (r & pos' & E & Hr);
    rewrite E end.
  cbn [content write_log stdout] in *.
  destruct (run_entries hd page_size (range (e_phnum hd)) file) as [[b c'] w].
  cbn [fst snd] in *. destruct b.
  - destruct Hr as [m' ->]. destruct m'; reflexivity.
  - destruct Hr as [e ->]. reflexivity.
Qed.

End TopLevel.

(** ** The header *)

Lemma read_header_wf (elf_header : list byte) (hd : phdr_info) :
  read_header elf_header = inr hd -> wf_info hd.
Proof.
  unfold read_header, rbind.
  destruct (index elf_header 4) as [|ei_class]; [discriminate|].
  destruct (index elf_header 5) as [|ei_data]; [discriminate|].
  destruct (ei_class =? 2).
  - destruct (unpack _ (py_slice elf_header 32 40)) as [|a] eqn:Ea;
      [discriminate|].
    destruct (unpack _ (py_slice elf_header 54 56)) as [|b] eqn:Eb;
      [discriminate|].
    destruct (unpack _ (py_slice elf_header 56 58)) as [|d] eqn:Ed;
      [discriminate|].
    apply unpack_range in Ea, Eb, Ed.
    intros H. injection H as <-. constructor; cbn; lia.
  - destruct (unpack _ (py_slice elf_header 28 32)) as [|a] eqn:Ea;
      [discriminate|].
    destruct (unpack _ (py_slice elf_header 42 44)) as [|b] eqn:Eb;
      [discriminate|].
    destruct (unpack _ (py_slice elf_header 44 46)) as [|d] eqn:Ed;
      [discriminate|].
    apply unpack_range in Ea, Eb, Ed.
    intros H. injection H as <-. constructor; cbn; lia.
Qed.

Lemma header_of_wf (file : list byte) (hd : phdr_info) :
  header_of file = Some hd -> wf_info hd.
Proof.
  unfold header_of. destruct (bytes_eqb _ _); [|discriminate].
  destruct (read_header _) eqn:E; [discriminate|].
  intros H. injection H as <-. eapply read_header_wf, E.
Qed.

(** ** One round of the loop *)

Section Round.

Variables (hd : phdr_info) (page_size : Z).
Hypothesis Hwf : wf_info hd.

Lemma read_at_ext (c c' : list byte) (off : Z) (n : nat) (f : struct_fmt) :
  (forall p, (Z.to_nat off <= p < Z.to_nat off + n)%nat ->
             nth_error c' p = nth_error c p) ->
  read_at c' off n f = read_at c off n f.
Proof.
  intros H. unfold read_at. now rewrite (bytes_at_ext c c' off n H).
Qed.

(** A read that succeeds lies inside the file, at an offset that is not
    negative. *)
Lemma read_at_inside (c : list byte) (off : Z) (n : nat) (f : struct_fmt)
    (v : Z) :
  (0 < n)%nat -> n = calcsize f -> read_at c off n f = inr v ->
  0 <= off <= off_max /\ (Z.to_nat off + n <= length c)%nat.
Proof.
  intros Hn Hf. unfold read_at.
  destruct (Z.ltb_spec off 0) as [Hlo|Hlo]; [discriminate|].
  destruct (Z.ltb_spec off_max off) as [Hhi|Hhi]; [discriminate|].
  intros H. apply unpack_length in H. split; [lia|].
  apply bytes_at_full; congruence.
Qed.

(** A read past the end of the file fails. *)
Lemma read_at_short (c : list byte) (off : Z) (n : nat) (f : struct_fmt) :
  (0 < n)%nat -> n = calcsize f -> 0 <= off ->
  Z.of_nat (length c) < off + Z.of_nat n ->
  exists e, read_at c off n f = inl e.
Proof.
  intros Hn Hf Hoff Hlen.
  destruct (read_at c off n f) as [e|v] eqn:E; [now exists e|].
  apply read_at_inside in E as [_ E]; trivial. lia.
Qed.

(** The three ways a round can end. *)
Lemma entry_step_cases (c : list byte) (i : Z) :
  match entry_step hd page_size c i with
  | inl _ => True
  | inr None =>
      exists t, p_type_at hd c i = inr t /\
                (t = PT_LOAD -> p_align_at hd c i = inr page_size)
  | inr (Some (off, bs)) =>
      off = align_pos hd i /\ p_type_at hd c i = inr PT_LOAD /\
      0 <= off <= off_max /\ (Z.to_nat off + length bs <= length c)%nat /\
      length bs = p_align_size hd /\
      unpack (p_align_fmt hd) bs = inr page_size
  end.
Proof.
  unfold entry_step, rbind.
  destruct (p_type_at hd c i) as [e|t] eqn:Et; [exact I|].
  destruct (Z.eqb_spec t PT_LOAD) as [->|Ht].
  - destruct (p_align_at hd c i) as [e|a] eqn:Ea; [exact I|].
    destruct (Z.eqb_spec a page_size) as [->|Ha]; cbn.
    + exists PT_LOAD. auto.
    + destruct (pack (p_align_fmt hd) page_size) as [e|bs] eqn:Ep; [exact I|].
      pose proof (pack_length _ _ _ Ep) as Hl.
      apply read_at_inside in Ea as [Ea1 Ea2];
        [|apply Hwf|apply Hwf].
      rewrite Hl, <- (wf_align_size hd Hwf).
      split; [reflexivity|]. split; [reflexivity|]. split; [assumption|].
      split; [assumption|]. split; [reflexivity|]. now apply unpack_pack.
  - exists t. split; [reflexivity|]. intros ->. contradiction.
Qed.

(** A round that meets a type field it cannot read raises. *)
Lemma entry_step_no_type (c : list byte) (i : Z) (e : exn) :
  p_type_at hd c i = inl e -> entry_step hd page_size c i = inl e.
Proof.
  intros H. unfold entry_step. now rewrite H.
Qed.

(** So does one that meets a loadable entry whose alignment it cannot read. *)
Lemma entry_step_no_align (c : list byte) (i : Z) (e : exn) :
  p_type_at hd c i = inr PT_LOAD -> p_align_at hd c i = inl e ->
  entry_step hd page_size c i = inl e.
Proof.
  intros H1 H2. unfold entry_step. now rewrite H1, H2.
Qed.

(** A round on an entry that needs no change does nothing. *)
Lemma entry_step_aligned (c : list byte) (i t : Z) :
  p_type_at hd c i = inr t ->
  (t = PT_LOAD -> p_align_at hd c i = inr page_size) ->
  entry_step hd page_size c i = inr None.
Proof.
  intros H1 H2. unfold entry_step. rewrite H1. cbn.
  destruct (Z.eqb_spec t PT_LOAD) as [Ht|Ht]; [|reflexivity].
  rewrite (H2 Ht). cbn. now rewrite Z.eqb_refl.
Qed.

(** After the write of a round the alignment of its entry is the target. *)
Lemma p_align_at_written (c : list byte) (i : Z) (bs : list byte) :
  (Z.to_nat (align_pos hd i) + length bs <= length c)%nat ->
  0 <= align_pos hd i <= off_max ->
  length bs = p_align_size hd ->
  unpack (p_align_fmt hd) bs = inr page_size ->
  p_align_at hd (write_at c (align_pos hd i) bs) i = inr page_size.
Proof.
  intros Hin Hpos Hl Hu. unfold p_align_at, read_at.
  destruct (Z.ltb_spec (align_pos hd i) 0); [lia|].
  destruct (Z.ltb_spec off_max (align_pos hd i)); [lia|].
  now rewrite <- Hl, bytes_at_write_at.
Qed.

End Round.

(** ** Where the fields of the entries lie *)

Section Layout.

Variable hd : phdr_info.
Hypothesis Hwf : wf_info hd.

Lemma ph_offset_nonneg (i : Z) : 0 <= i -> 0 <= ph_offset hd i.
Proof.
  intros Hi. unfold ph_offset. destruct Hwf. nia.
Qed.

Lemma ph_offset_mono (i j : Z) : i <= j -> ph_offset hd i <= ph_offset hd j.
Proof.
  intros Hij. unfold ph_offset. destruct Hwf. nia.
Qed.

Lemma ph_offset_step (i j : Z) :
  i < j -> ph_offset hd i + e_phentsize hd <= ph_offset hd j.
Proof.
  intros Hij. unfold ph_offset. destruct Hwf. nia.
Qed.

(** The alignment field of an entry starts after the type field of that entry
    and of every entry before it. *)
Lemma align_after_type (i j : Z) (p : nat) :
  i <= j -> in_align_field hd j p ->
  ~ (ph_offset hd i <= Z.of_nat p < ph_offset hd i + 4).
Proof.
  intros Hij [H1 H2] H3. unfold align_pos in *.
  pose proof (ph_offset_mono i j Hij). destruct Hwf. lia.
Qed.

Lemma align_apart (i j : Z) (p : nat) :
  align_fields_disjoint hd = true -> i < j ->
  in_align_field hd j p -> ~ in_align_field hd i p.
Proof.
  unfold align_fields_disjoint. intros Hd Hij [H1 H2] [H3 H4].
  apply Z.leb_le in Hd. unfold align_pos in *.
  pose proof (ph_offset_step i j Hij). lia.
Qed.

Lemma entries_disjoint_align (i j : Z) (p : nat) :
  entries_disjoint hd = true -> i <> j ->
  in_align_field hd j p -> ~ in_align_field hd i p.
Proof.
  unfold entries_disjoint. intros Hd Hij [H1 H2] [H3 H4].
  apply Z.leb_le in Hd. unfold align_pos in *. destruct Hwf.
  destruct (Z.lt_trichotomy i j) as [H|[H|H]]; [|contradiction|].
  - pose proof (ph_offset_step i j H). lia.
  - pose proof (ph_offset_step j i H). lia.
Qed.

Lemma entries_disjoint_type (i j : Z) (p : nat) :
  entries_disjoint hd = true ->
  in_align_field hd j p ->
  ~ (ph_offset hd i <= Z.of_nat p < ph_offset hd i + 4).
Proof.
  unfold entries_disjoint. intros Hd [H1 H2] H3.
  apply Z.leb_le in Hd. unfold align_pos in *. destruct Hwf.
  destruct (Z_lt_le_dec j i) as [H|H].
  - pose proof (ph_offset_step j i H). lia.
  - pose proof (ph_offset_mono i j H). lia.
Qed.

(** The fields of an entry depend on their own bytes only. *)
Lemma p_type_at_same (c c' : list byte) (i : Z) :
  0 <= i ->
  (forall p, ph_offset hd i <= Z.of_nat p < ph_offset hd i + 4 ->
             nth_error c' p = nth_error c p) ->
  p_type_at hd c' i = p_type_at hd c i.
Proof.
  intros Hi H. unfold p_type_at. apply read_at_ext. intros p Hp.
  apply H. pose proof (ph_offset_nonneg i Hi). lia.
Qed.

Lemma p_align_at_same (c c' : list byte) (i : Z) :
  0 <= i ->
  (forall p, in_align_field hd i p -> nth_error c' p = nth_error c p) ->
  p_align_at hd c' i = p_align_at hd c i.
Proof.
  intros Hi H. unfold p_align_at. apply read_at_ext. intros p Hp.
  apply H. unfold in_align_field, align_pos in *.
  pose proof (ph_offset_nonneg i Hi). destruct Hwf. lia.
Qed.

End Layout.

(** ** The loop *)

Section Loop.

Variables (hd : phdr_info) (page_size : Z).
Hypothesis Hwf : wf_info hd.

Local Abbreviation run := (run_entries hd page_size).

(** The loop never changes the length of the file. *)
Lemma run_entries_length (l : list Z) (c : list byte) :
  length (snd (fst (run l c))) = length c.
Proof.
  revert c. induction l as [|i l IH]; intros c; [reflexivity|].
  cbn [run_entries].
  pose proof (entry_step_cases hd page_size Hwf c i) as Hc.
  destruct (entry_step hd page_size c i) as [e|[[off bs]|]];
    [reflexivity| |apply IH].
  destruct Hc as (_ & _ & _ & Hin & _).
  specialize (IH (write_at c off bs)).
  destruct (run_entries hd page_size l (write_at c off bs)) as [[b c'] w].
  cbn [fst snd] in *. rewrite IH. now apply length_write_at.
Qed.

(** A byte outside the alignment fields of the entries visited is kept. *)
Lemma run_entries_untouched (l : list Z) (c : list byte) (p : nat) :
  (forall j, In j l -> ~ in_align_field hd j p) ->
  nth_error (snd (fst (run l c))) p = nth_error c p.
Proof.
  revert c. induction l as [|i l IH]; intros c Hp; [reflexivity|].
  cbn [run_entries].
  pose proof (entry_step_cases hd page_size Hwf c i) as Hc.
  destruct (entry_step hd page_size c i) as [e|[[off bs]|]];
    [reflexivity| |apply IH; intros j Hj; apply Hp; now right].
  destruct Hc as (-> & _ & Hoff & Hin & Hl & _).
  specialize (IH (write_at c (align_pos hd i) bs)).
  destruct (run_entries hd page_size l (write_at c (align_pos hd i) bs))
    as [[b c'] w].
  cbn [fst snd] in *.
  rewrite IH by (intros j Hj; apply Hp; now right).
  apply nth_error_write_at_outside; [assumption|].
  specialize (Hp i (or_introl eq_refl)). unfold in_align_field in Hp. lia.
Qed.

(** The loop stops with [False] at an entry whose type field it cannot
    read. *)
Lemma run_entries_no_type (l : list Z) (c : list byte) (i : Z) :
  In i l -> 0 <= i ->
  Z.of_nat (length c) < ph_offset hd i + 4 ->
  fst (fst (run l c)) = false.
Proof.
  intros Hi Hi0 Hlen. revert c Hlen.
  induction l as [|k l IH]; intros c Hlen; [destruct Hi|].
  cbn [run_entries].
  pose proof (entry_step_cases hd page_size Hwf c k) as Hc.
  destruct (entry_step hd page_size c k) as [e|[[off bs]|]] eqn:Es;
    [reflexivity| |].
  - destruct Hc as (-> & Ht & _ & Hin & _).
    assert (Hk : In i l).
    { destruct Hi as [->|Hi]; [|exact Hi]. exfalso.
      unfold p_type_at in Ht.
      apply read_at_inside in Ht as [Ht1 Ht2]; [|lia|reflexivity]. lia. }
    specialize (IH Hk (write_at c (align_pos hd k) bs)).
    destruct (run_entries hd page_size l (write_at c (align_pos hd k) bs))
      as [[b c'] w].
    cbn [fst snd] in *. apply IH. now rewrite length_write_at.
  - destruct Hc as (t & Ht & _).
    assert (Hk : In i l).
    { destruct Hi as [->|Hi]; [|exact Hi]. exfalso.
      unfold p_type_at in Ht.
      apply read_at_inside in Ht as [Ht1 Ht2]; [|lia|reflexivity]. lia. }
    now apply IH.
Qed.

(** A write into the alignment field of entry [k] keeps every other byte. *)
Lemma write_keeps (c : list byte) (k : Z) (bs : list byte) (p : nat) :
  0 <= align_pos hd k ->
  (Z.to_nat (align_pos hd k) + length bs <= length c)%nat ->
  length bs = p_align_size hd ->
  ~ in_align_field hd k p ->
  nth_error (write_at c (align_pos hd k) bs) p = nth_error c p.
Proof.
  intros Hpos Hin Hl Hp. apply nth_error_write_at_outside; [assumption|].
  unfold in_align_field in Hp. lia.
Qed.

(** When no alignment needs a change the loop succeeds and writes nothing. *)
Lemma run_entries_noop (l : list Z) (c : list byte) :
  (forall i, In i l ->
     exists t, p_type_at hd c i = inr t /\
               (t = PT_LOAD -> p_align_at hd c i = inr page_size)) ->
  run l c = (true, c, []).
Proof.
  induction l as [|i l IH]; intros H; [reflexivity|].
  cbn [run_entries].
  destruct (H i (or_introl eq_refl)) as (t & Ht & Ha).
  rewrite (entry_step_aligned hd page_size c i t Ht Ha).
  apply IH. intros j Hj. apply H. now right.
Qed.

(** *** A target that does not fit the alignment field *)

Section Unrepresentable.

Hypothesis Hrange :
  ~ (0 <= page_size < 2 ^ (8 * Z.of_nat (p_align_size hd))).

Lemma entry_step_unrep (c : list byte) (i : Z) :
  entry_step hd page_size c i = inr None \/
  exists e, entry_step hd page_size c i = inl e.
Proof.
  pose proof (entry_step_cases hd page_size Hwf c i) as Hc.
  destruct (entry_step hd page_size c i) as [e|[[off bs]|]].
  - right. now exists e.
  - exfalso. destruct Hc as (_ & _ & _ & _ & _ & Hu).
    apply unpack_range in Hu. rewrite <- (wf_align_size hd Hwf) in Hu.
    contradiction.
  - now left.
Qed.

Lemma entry_step_unrep_load (c : list byte) (i : Z) :
  p_type_at hd c i = inr PT_LOAD ->
  exists e, entry_step hd page_size c i = inl e.
Proof.
  intros Ht. destruct (entry_step_unrep c i) as [E|E]; [|exact E].
  exfalso.
  pose proof (entry_step_cases hd page_size Hwf c i) as Hc. rewrite E in Hc.
  destruct Hc as (t & Ht' & Ha). rewrite Ht in Ht'. injection Ht' as <-.
  specialize (Ha eq_refl). unfold p_align_at, read_at in Ha.
  destruct (_ <? 0); [discriminate|].
  destruct (off_max <? _); [discriminate|].
  apply unpack_range in Ha. rewrite <- (wf_align_size hd Hwf) in Ha.
  contradiction.
Qed.

(** The loop then writes nothing, and fails when it meets a loadable entry. *)
Lemma run_entries_unrep (l : list Z) (c : list byte) :
  snd (fst (run l c)) = c /\ snd (run l c) = [] /\
  ((exists i, In i l /\ p_type_at hd c i = inr PT_LOAD) ->
   fst (fst (run l c)) = false).
Proof.
  induction l as [|i l IH].
  - cbn. repeat split. intros (i & [] & _).
  - cbn [run_entries].
    destruct (entry_step_unrep c i) as [E|[e E]]; rewrite E.
    + destruct IH as (H1 & H2 & H3). repeat split; trivial.
      intros (j & [->|Hj] & Ht).
      * destruct (entry_step_unrep_load c j Ht) as [e E']. congruence.
      * apply H3. now exists j.
    + cbn. repeat split.
Qed.

End Unrepresentable.

(** *** Entries whose alignment fields do not overlap *)

Section AlignDisjoint.

Hypothesis Hdisj : align_fields_disjoint hd = true.

(** After a loop that ran to its end, every entry visited that is loadable
    has the target alignment. *)
Lemma run_entries_aligned (l : list Z) (c : list byte) :
  StronglySorted Z.lt l -> (forall j, In j l -> 0 <= j) ->
  fst (fst (run l c)) = true ->
  forall i, In i l ->
    p_type_at hd (snd (fst (run l c))) i = inr PT_LOAD ->
    p_align_at hd (snd (fst (run l c))) i = inr page_size.
Proof.
  intros Hs. revert c.
  induction Hs as [|k l Hs IH Hk]; intros c Hpos Hok i Hi; [destruct Hi|].
  rewrite Forall_forall in Hk.
  assert (Hk0 : 0 <= k) by (apply Hpos; now left).
  assert (Hpos' : forall j, In j l -> 0 <= j)
    by (intros j Hj; apply Hpos; now right).
  revert Hok. cbn [run_entries].
  pose proof (entry_step_cases hd page_size Hwf c k) as Hc.
  destruct (entry_step hd page_size c k) as [e|[[off bs]|]];
    [discriminate| |].
  - (* the round wrote the alignment of entry [k] *)
    destruct Hc as (-> & Ht & Hoff & Hin & Hl & Hu).
    pose proof (run_entries_untouched l (write_at c (align_pos hd k) bs))
      as Hkeep.
    specialize (IH (write_at c (align_pos hd k) bs) Hpos').
    destruct (run_entries hd page_size l (write_at c (align_pos hd k) bs))
      as [[b c'] w].
    cbn [fst snd] in *. intros Hok. destruct Hi as [->|Hi]; [|now apply IH].
    intros _. rewrite (p_align_at_same hd Hwf (write_at c (align_pos hd i) bs)).
    + now apply p_align_at_written.
    + assumption.
    + intros p Hp. apply Hkeep. intros j Hj Hpj.
      exact (align_apart hd Hwf i j p Hdisj (Hk j Hj) Hpj Hp).
  - (* the round wrote nothing *)
    destruct Hc as (t & Ht & Ha).
    pose proof (run_entries_untouched l c) as Hkeep.
    specialize (IH c Hpos').
    destruct (run_entries hd page_size l c) as [[b c'] w].
    cbn [fst snd] in *. intros Hok. destruct Hi as [->|Hi]; [|now apply IH].
    rewrite (p_type_at_same hd Hwf c c' i Hk0).
    + rewrite Ht. intros Ht'. injection Ht' as ->.
      rewrite (p_align_at_same hd Hwf c c' i Hk0); [now apply Ha|].
      intros p Hp. apply Hkeep. intros j Hj Hpj.
      exact (align_apart hd Hwf i j p Hdisj (Hk j Hj) Hpj Hp).
    + intros p Hp. apply Hkeep. intros j Hj Hpj.
      refine (align_after_type hd Hwf i j p _ Hpj Hp).
      specialize (Hk j Hj). lia.
Qed.

End AlignDisjoint.

(** *** Entries that do not overlap *)

Section EntriesDisjoint.

Hypothesis Hdisj : entries_disjoint hd = true.

(** A round keeps the type field of every entry. *)
Lemma write_keeps_type (c : list byte) (k i : Z) (bs : list byte) :
  0 <= i -> 0 <= align_pos hd k ->
  (Z.to_nat (align_pos hd k) + length bs <= length c)%nat ->
  length bs = p_align_size hd ->
  p_type_at hd (write_at c (align_pos hd k) bs) i = p_type_at hd c i.
Proof.
  intros Hi Hpos Hin Hl. apply (p_type_at_same hd Hwf); [assumption|].
  intros p Hp. apply write_keeps; trivial.
  intros Hpk. exact (entries_disjoint_type hd Hwf i k p Hdisj Hpk Hp).
Qed.

(** And the alignment field of every other entry. *)
Lemma write_keeps_align (c : list byte) (k i : Z) (bs : list byte) :
  0 <= i -> i <> k -> 0 <= align_pos hd k ->
  (Z.to_nat (align_pos hd k) + length bs <= length c)%nat ->
  length bs = p_align_size hd ->
  p_align_at hd (write_at c (align_pos hd k) bs) i = p_align_at hd c i.
Proof.
  intros Hi Hik Hpos Hin Hl. apply (p_align_at_same hd Hwf); [assumption|].
  intros p Hp. apply write_keeps; trivial.
  intros Hpk. exact (entries_disjoint_align hd Hwf i k p Hdisj Hik Hpk Hp).
Qed.

(** The loop keeps the type field of every entry. *)
Lemma run_entries_types (l : list Z) (c : list byte) (i : Z) :
  0 <= i ->
  p_type_at hd (snd (fst (run l c))) i = p_type_at hd c i.
Proof.
  intros Hi. apply (p_type_at_same hd Hwf); [assumption|].
  intros p Hp. apply run_entries_untouched.
  intros j _ Hpj. exact (entries_disjoint_type hd Hwf i j p Hdisj Hpj Hp).
Qed.

(** The loop runs to its end when the target fits the alignment field and
    every field it has to read can be read. *)
Lemma run_entries_readable (l : list Z) (c : list byte) :
  0 <= page_size < 2 ^ (8 * Z.of_nat (p_align_size hd)) ->
  (forall j, In j l -> 0 <= j) ->
  (forall i, In i l ->
     exists t, p_type_at hd c i = inr t /\
               (t = PT_LOAD -> exists a, p_align_at hd c i = inr a)) ->
  fst (fst (run l c)) = true.
Proof.
  intros Hr. revert c. induction l as [|k l IH]; intros c Hpos Hread;
    [reflexivity|].
  assert (Hpos' : forall j, In j l -> 0 <= j)
    by (intros j Hj; apply Hpos; now right).
  cbn [run_entries].
  pose proof (entry_step_cases hd page_size Hwf c k) as Hc.
  destruct (entry_step hd page_size c k) as [e|[[off bs]|]] eqn:Es.
  - exfalso. destruct (Hread k (or_introl eq_refl)) as (t & Ht & Ha).
    unfold entry_step, rbind in Es. rewrite Ht in Es.
    destruct (Z.eqb_spec t PT_LOAD) as [Hl|Hl]; [|discriminate].
    destruct (Ha Hl) as [a Ea]. rewrite Ea in Es.
    destruct (negb (a =? page_size)); [|discriminate].
    rewrite pack_in_range in Es; [discriminate|].
    now rewrite <- (wf_align_size hd Hwf).
  - destruct Hc as (-> & _ & Hoff & Hin & Hl & _).
    specialize (IH (write_at c (align_pos hd k) bs) Hpos').
    destruct (run_entries hd page_size l (write_at c (align_pos hd k) bs))
      as [[b c'] w].
    cbn [fst snd] in *. apply IH. intros i Hi.
    destruct (Hread i (or_intror Hi)) as (t & Ht & Ha).
    exists t. split.
    + rewrite write_keeps_type; trivial; [now apply Hpos'|lia].
    + intros Hload. destruct (Ha Hload) as [a Ea].
      apply (read_at_length c _ _ _ _ a); [|exact Ea].
      now apply length_write_at.
  - apply IH; trivial. intros i Hi. apply Hread. now right.
Qed.

(** The loop stops with [False] at a loadable entry whose alignment field it
    cannot read. *)
Lemma run_entries_no_align (l : list Z) (c : list byte) (i : Z) (e : exn) :
  (forall j, In j l -> 0 <= j) -> In i l ->
  p_type_at hd c i = inr PT_LOAD -> p_align_at hd c i = inl e ->
  fst (fst (run l c)) = false.
Proof.
  revert c. induction l as [|k l IH]; intros c Hpos Hi Ht Ha; [destruct Hi|].
  assert (Hpos' : forall j, In j l -> 0 <= j)
    by (intros j Hj; apply Hpos; now right).
  assert (Hi0 : 0 <= i) by now apply Hpos.
  cbn [run_entries].
  pose proof (entry_step_cases hd page_size Hwf c k) as Hc.
  destruct (entry_step hd page_size c k) as [e'|[[off bs]|]] eqn:Es;
    [reflexivity| |].
  - destruct Hc as (-> & _ & Hoff & Hin & Hl & _).
    assert (Hik : i <> k).
    { intros ->. rewrite (entry_step_no_align hd page_size c k e Ht Ha) in Es.
      discriminate. }
    specialize (IH (write_at c (align_pos hd k) bs) Hpos').
    destruct (run_entries hd page_size l (write_at c (align_pos hd k) bs))
      as [[b c'] w].
    cbn [fst snd] in *. apply IH.
    + destruct Hi as [->|Hi]; [contradiction|exact Hi].
    + rewrite write_keeps_type; trivial. lia.
    + rewrite write_keeps_align; trivial. lia.
  - assert (Hik : i <> k).
    { intros ->. rewrite (entry_step_no_align hd page_size c k e Ht Ha) in Es.
      discriminate. }
    apply IH; trivial.
    destruct Hi as [->|Hi]; [contradiction|exact Hi].
Qed.

End EntriesDisjoint.

(** *** Entries visited in ascending order *)

(** The loop keeps the type field of an entry that comes before all those it
    visits, or is the first of them. *)
Lemma run_entries_type_before (l : list Z) (c : list byte) (k : Z) :
  0 <= k -> (forall j, In j l -> k <= j) ->
  p_type_at hd (snd (fst (run l c))) k = p_type_at hd c k.
Proof.
  intros Hk Hl. apply (p_type_at_same hd Hwf); [assumption|].
  intros p Hp. apply run_entries_untouched.
  intros j Hj Hpj. exact (align_after_type hd Hwf k j p (Hl j Hj) Hpj Hp).
Qed.

Lemma write_keeps_type_before (c : list byte) (k i : Z) (bs : list byte) :
  0 <= i <= k -> 0 <= align_pos hd k ->
  (Z.to_nat (align_pos hd k) + length bs <= length c)%nat ->
  length bs = p_align_size hd ->
  p_type_at hd (write_at c (align_pos hd k) bs) i = p_type_at hd c i.
Proof.
  intros Hi Hpos Hin Hl. apply (p_type_at_same hd Hwf); [lia|].
  intros p Hp. apply write_keeps; trivial.
  intros Hpk. refine (align_after_type hd Hwf i k p _ Hpk Hp). lia.
Qed.

(** A byte that the loop changes lies in the alignment field of an entry
    that is loadable when the loop stops. *)
Lemma run_entries_changed_after (l : list Z) (c : list byte) (p : nat) :
  StronglySorted Z.lt l -> (forall j, In j l -> 0 <= j) ->
  nth_error (snd (fst (run l c))) p <> nth_error c p ->
  exists j, In j l /\
            p_type_at hd (snd (fst (run l c))) j = inr PT_LOAD /\
            in_align_field hd j p.
Proof.
  intros Hs. revert c.
  induction Hs as [|k l Hs IH Hk]; intros c Hpos;
    [intros []; reflexivity|].
  rewrite Forall_forall in Hk.
  assert (Hk0 : 0 <= k) by (apply Hpos; now left).
  assert (Hpos' : forall j, In j l -> 0 <= j)
    by (intros j Hj; apply Hpos; now right).
  assert (Hle : forall j, In j l -> k <= j)
    by (intros j Hj; specialize (Hk j Hj); lia).
  cbn [run_entries].
  pose proof (entry_step_cases hd page_size Hwf c k) as Hc.
  destruct (entry_step hd page_size c k) as [e|[[off bs]|]].
  - intros []. reflexivity.
  - destruct Hc as (-> & Ht & Hoff & Hin & Hl & _).
    specialize (IH (write_at c (align_pos hd k) bs) Hpos').
    pose proof (run_entries_type_before l (write_at c (align_pos hd k) bs) k
                  Hk0 Hle) as Htk.
    destruct (run_entries hd page_size l (write_at c (align_pos hd k) bs))
      as [[b c'] w].
    cbn [fst snd] in *. intros Hne.
    destruct (Z_le_gt_dec (align_pos hd k) (Z.of_nat p)) as [H1|H1];
      [destruct (Z_lt_le_dec (Z.of_nat p)
                   (align_pos hd k + Z.of_nat (p_align_size hd))) as [H2|H2]|].
    + exists k. split; [now left|]. split; [|split; assumption].
      rewrite Htk, write_keeps_type_before; trivial; lia.
    + destruct IH as (j & Hj & Hjp).
      { rewrite write_keeps; trivial; [lia|]. unfold in_align_field. lia. }
      exists j. split; [now right|assumption].
    + destruct IH as (j & Hj & Hjp).
      { rewrite write_keeps; trivial; [lia|]. unfold in_align_field. lia. }
      exists j. split; [now right|assumption].
  - intros Hne. destruct (IH c Hpos' Hne) as (j & Hj & Hjp).
    exists j. split; [now right|assumption].
Qed.

Section Again.

Hypothesis Hdisj : align_fields_disjoint hd = true.

Lemma run_entries_align_before (l : list Z) (c : list byte) (k : Z) :
  0 <= k -> (forall j, In j l -> k < j) ->
  p_align_at hd (snd (fst (run l c))) k = p_align_at hd c k.
Proof.
  intros Hk Hl. apply (p_align_at_same hd Hwf); [assumption|].
  intros p Hp. apply run_entries_untouched.
  intros j Hj Hpj. exact (align_apart hd Hwf k j p Hdisj (Hl j Hj) Hpj Hp).
Qed.

(** Running the loop again on the bytes it left writes nothing, and ends the
    same way. *)
Lemma run_entries_again (l : list Z) (c : list byte) :
  StronglySorted Z.lt l -> (forall j, In j l -> 0 <= j) ->
  run l (snd (fst (run l c))) =
  (fst (fst (run l c)), snd (fst (run l c)), []).
Proof.
  intros Hs. revert c.
  induction Hs as [|k l Hs IH Hk]; intros c Hpos; [reflexivity|].
  rewrite Forall_forall in Hk.
  assert (Hk0 : 0 <= k) by (apply Hpos; now left).
  assert (Hpos' : forall j, In j l -> 0 <= j)
    by (intros j Hj; apply Hpos; now right).
  assert (Hle : forall j, In j l -> k <= j)
    by (intros j Hj; specialize (Hk j Hj); lia).
  cbn [run_entries].
  pose proof (entry_step_cases hd page_size Hwf c k) as Hc.
  destruct (entry_step hd page_size c k) as [e|[[off bs]|]] eqn:Es.
  - cbn [fst snd run_entries]. now rewrite Es.
  - destruct Hc as (-> & Ht & Hoff & Hin & Hl & Hu).
    specialize (IH (write_at c (align_pos hd k) bs) Hpos').
    pose proof (run_entries_type_before l (write_at c (align_pos hd k) bs) k
                  Hk0 Hle) as Htk.
    pose proof (run_entries_align_before l (write_at c (align_pos hd k) bs) k
                  Hk0 Hk) as Hak.
    destruct (run_entries hd page_size l (write_at c (align_pos hd k) bs))
      as [[b c'] w].
    cbn [fst snd] in *. cbn [run_entries].
    rewrite (entry_step_aligned hd page_size c' k PT_LOAD); [exact IH| |].
    + rewrite Htk. rewrite write_keeps_type_before; trivial; lia.
    + intros _. rewrite Hak. apply p_align_at_written; trivial.
  - destruct Hc as (t & Ht & Ha).
    specialize (IH c Hpos').
    pose proof (run_entries_type_before l c k Hk0 Hle) as Htk.
    pose proof (run_entries_align_before l c k Hk0 Hk) as Hak.
    destruct (run_entries hd page_size l c) as [[b c'] w].
    cbn [fst snd] in *. cbn [run_entries].
    rewrite (entry_step_aligned hd page_size c' k t); [exact IH| |].
    + now rewrite Htk.
    + intros Hl. rewrite Hak. now apply Ha.
Qed.

End Again.


End Loop.

(** ** The indices the loop visits *)

Lemma in_range (n i : Z) : In i (range n) <-> 0 <= i < n.
Proof.
  unfold range. rewrite in_map_iff. split.
  - intros (k & <- & Hk). apply in_seq in Hk. lia.
  - intros Hi. exists (Z.to_nat i). split; [lia|]. apply in_seq. lia.
Qed.

Lemma range_sorted (n : Z) : StronglySorted Z.lt (range n).
Proof.
  unfold range. generalize (Z.to_nat n) as m. generalize 0%nat as a.
  intros a m. revert a. induction m as [|m IH]; intros a; cbn.
  - constructor.
  - constructor; [apply IH|]. apply Forall_forall. intros x Hx.
    apply in_map_iff in Hx as (k & <- & Hk). apply in_seq in Hk. lia.
Qed.

(** ** The header and the length of the file *)

Lemma bytes_at_0 (file : list byte) (n : nat) : bytes_at file 0 n = firstn n file.
Proof. reflexivity. Qed.

Lemma magic_slice (file : list byte) :
  py_slice (bytes_at file 0 64) 0 4 = firstn 4 file.
Proof.
  unfold py_slice, bytes_at. cbn [Z.to_nat skipn Nat.sub].
  now rewrite firstn_firstn.
Qed.

Lemma index_header (file : list byte) (i : nat) :
  (i < 64)%nat -> index (bytes_at file 0 64) i = index file i.
Proof.
  intros Hi. unfold index. rewrite bytes_at_0, nth_error_firstn.
  destruct (Nat.ltb_spec i 64); [reflexivity|lia].
Qed.

Lemma length_py_slice (b : list byte) (lo hi : nat) :
  length (py_slice b lo hi) = Nat.min (hi - lo) (length b - lo).
Proof.
  unfold py_slice. now rewrite length_firstn, length_skipn.
Qed.

Lemma unpack_slice_inv (f : struct_fmt) (b : list byte) (lo hi : nat) (v : Z) :
  (lo < hi)%nat -> unpack f (py_slice b lo hi) = inr v ->
  calcsize f = (hi - lo)%nat -> (hi <= length b)%nat.
Proof.
  intros Hlo H Hf. apply unpack_length in H.
  rewrite length_py_slice in H. lia.
Qed.

Lemma unpack_slice_ok (f : struct_fmt) (b : list byte) (lo hi : nat) :
  calcsize f = (hi - lo)%nat -> (hi <= length b)%nat ->
  unpack f (py_slice b lo hi) = inr (int_from_bytes (fst f) (py_slice b lo hi)).
Proof.
  intros Hf Hhi. unfold unpack. rewrite length_py_slice.
  destruct (Nat.eqb_spec (Nat.min (hi - lo) (length b - lo)) (calcsize f));
    [reflexivity|lia].
Qed.

(** A header is decoded only when the bytes reach the last field read: offset
    58 for class 2, offset 46 otherwise. *)
Lemma read_header_inv (b : list byte) (hd : phdr_info) :
  read_header b = inr hd ->
  exists c, index b 4 = inr c /\ is_64bit hd = (c =? 2) /\
            (if c =? 2 then (58 <= length b)%nat else (46 <= length b)%nat).
Proof.
  unfold read_header, rbind.
  destruct (index b 4) as [|c]; [discriminate|].
  destruct (index b 5) as [|d]; [discriminate|].
  intros H. exists c. split; [reflexivity|]. revert H.
  destruct (c =? 2).
  - destruct (unpack _ (py_slice b 32 40)); [discriminate|].
    destruct (unpack _ (py_slice b 54 56)); [discriminate|].
    destruct (unpack _ (py_slice b 56 58)) eqn:E; [discriminate|].
    intros H. injection H as <-. split; [reflexivity|].
    eapply unpack_slice_inv in E; [exact E|lia|reflexivity].
  - destruct (unpack _ (py_slice b 28 32)); [discriminate|].
    destruct (unpack _ (py_slice b 42 44)); [discriminate|].
    destruct (unpack _ (py_slice b 44 46)) eqn:E; [discriminate|].
    intros H. injection H as <-. split; [reflexivity|].
    eapply unpack_slice_inv in E; [exact E|lia|reflexivity].
Qed.

(** And then it is decoded whatever the two marker bytes are: class 2 is
    64-bit and every other value 32-bit; byte order 1 is little-endian and
    every other value big-endian. *)
Lemma read_header_ok (b : list byte) (c d : Z) :
  index b 4 = inr c -> index b 5 = inr d ->
  (if c =? 2 then (58 <= length b)%nat else (46 <= length b)%nat) ->
  exists hd, read_header b = inr hd /\
    is_64bit hd = (c =? 2) /\
    endian hd = (if d =? 1 then LittleEndian else BigEndian) /\
    p_align_offset hd = (if c =? 2 then 48 else 28) /\
    p_align_fmt hd = (endian hd, if c =? 2 then fmt_Q else fmt_I) /\
    p_align_size hd = (if c =? 2 then 8%nat else 4%nat).
Proof.
  intros Hc Hd Hlen. unfold read_header, rbind. rewrite Hc, Hd.
  destruct (c =? 2).
  - rewrite !unpack_slice_ok by (reflexivity || lia).
    eexists. split; [reflexivity|]. cbn. repeat split.
  - rewrite !unpack_slice_ok by (reflexivity || lia).
    eexists. split; [reflexivity|]. cbn. repeat split.
Qed.

Lemma header_of_inv (file : list byte) (hd : phdr_info) :
  header_of file = Some hd ->
  firstn 4 file = elf_magic /\
  exists c, index file 4 = inr c /\ is_64bit hd = (c =? 2) /\
            (if c =? 2 then (58 <= length file)%nat else (46 <= length file)%nat).
Proof.
  unfold header_of. rewrite magic_slice.
  destruct (bytes_eqb (firstn 4 file) elf_magic) eqn:Em; [|discriminate].
  apply bytes_eqb_eq in Em.
  destruct (read_header _) as [|hd'] eqn:E; [discriminate|].
  intros H. injection H as ->. split; [assumption|].
  apply read_header_inv in E as (c & Hc & H64 & Hlen).
  rewrite index_header in Hc by lia.
  exists c. split; [assumption|]. split; [assumption|].
  rewrite bytes_at_0, length_firstn in Hlen. destruct (c =? 2); lia.
Qed.

(** ** Running the loop a second time *)

Lemma byte_of_val (b : byte) (r : Z) : byte_of (byte_val b + 256 * r) = b.
Proof.
  unfold byte_of.
  replace ((byte_val b + 256 * r) mod 256) with (byte_val b).
  - unfold byte_val. now rewrite N2Z.id, Byte.of_to_N.
  - pose proof (byte_val_range b).
    replace (byte_val b + 256 * r) with (byte_val b + r * 256) by lia.
    rewrite Z_mod_plus_full. symmetry. apply Z.mod_small. lia.
Qed.

Lemma int_to_from_le (bs : list byte) :
  int_to_le (length bs) (int_from_le bs) = bs.
Proof.
  induction bs as [|b r IH]; cbn [length int_to_le int_from_le];
    [reflexivity|].
  rewrite byte_of_val. f_equal.
  replace ((byte_val b + 256 * int_from_le r) / 256) with (int_from_le r);
    [exact IH|].
  pose proof (byte_val_range b).
  replace (byte_val b + 256 * int_from_le r)
    with (byte_val b + int_from_le r * 256) by lia.
  rewrite Z.div_add by lia. rewrite (Z.div_small (byte_val b)); lia.
Qed.

(** Packing what was unpacked gives the bytes back: a value has one
    encoding. *)
Lemma pack_unpack (f : struct_fmt) (bs : list byte) (v : Z) :
  unpack f bs = inr v -> pack f v = inr bs.
Proof.
  intros H. pose proof (unpack_range _ _ _ H) as Hr.
  pose proof (unpack_length _ _ _ H) as Hl.
  unfold unpack in H. rewrite Hl, Nat.eqb_refl in H. injection H as <-.
  unfold pack.
  destruct (Z.leb_spec 0 (int_from_bytes (fst f) bs)); [|lia].
  destruct (Z.ltb_spec (int_from_bytes (fst f) bs)
              (2 ^ (8 * Z.of_nat (calcsize f)))); [|lia].
  cbn. f_equal. rewrite <- Hl. destruct (fst f); cbn.
  - apply int_to_from_le.
  - now rewrite <- (length_rev bs), int_to_from_le, rev_involutive.
Qed.

(** Writing the bytes that are there already changes nothing. *)
Lemma write_at_same (c : list byte) (off : Z) (bs : list byte) :
  (Z.to_nat off + length bs <= length c)%nat ->
  bytes_at c off (length bs) = bs ->
  write_at c off bs = c.
Proof.
  intros Hin Hbs. apply nth_error_ext. intros p.
  rewrite nth_error_write_at by assumption.
  destruct (Nat.leb_spec (Z.to_nat off) p);
    destruct (Nat.ltb_spec p (Z.to_nat off + length bs)); cbn;
    try reflexivity.
  rewrite <- Hbs at 1. rewrite nth_error_bytes_at.
  destruct (Nat.ltb_spec (p - Z.to_nat off) (length bs)); [|lia].
  f_equal. lia.
Qed.

Section SecondRun.

Variables (hd : phdr_info) (page_size : Z).
Hypothesis Hwf : wf_info hd.

(** A round that does not raise sets the alignment of a loadable entry to the
    target, be it by a write or because it is the target already. *)
Lemma step_bytes_spec (c : list byte) (i : Z) :
  step_bytes hd page_size c i =
  match p_type_at hd c i with
  | inl _ => None
  | inr t =>
      if t =? PT_LOAD then
        match p_align_at hd c i, pack (p_align_fmt hd) page_size with
        | inr _, inr packed => Some (write_at c (align_pos hd i) packed)
        | _, _ => None
        end
      else Some c
  end.
Proof.
  unfold step_bytes, entry_step, rbind.
  destruct (p_type_at hd c i) as [e|t]; [reflexivity|].
  destruct (t =? PT_LOAD); [|reflexivity].
  destruct (p_align_at hd c i) as [e|a] eqn:Ea; [reflexivity|].
  destruct (Z.eqb_spec a page_size) as [->|Ha]; cbn.
  - pose proof Ea as Hin.
    apply read_at_inside in Hin as [_ Hin]; [|apply Hwf|apply Hwf].
    unfold p_align_at, read_at in Ea.
    destruct (_ <? 0); [discriminate|].
    destruct (off_max <? _); [discriminate|].
    pose proof (unpack_length _ _ _ Ea) as Hl.
    rewrite (pack_unpack _ _ _ Ea). f_equal. symmetry.
    rewrite <- (wf_align_size hd Hwf) in Hl.
    apply write_at_same; rewrite Hl; [assumption|reflexivity].
  - destruct (pack (p_align_fmt hd) page_size); reflexivity.
Qed.

Lemma run_result_cons (k : Z) (l : list Z) (c : list byte) :
  run_result hd page_size (k :: l) c =
  match step_bytes hd page_size c k with
  | None => (false, c)
  | Some c1 => run_result hd page_size l c1
  end.
Proof.
  unfold run_result, step_bytes. cbn [run_entries].
  destruct (entry_step hd page_size c k) as [e|[[off bs]|]];
    try reflexivity.
  now destruct (run_entries hd page_size l (write_at c off bs)) as [[b c'] w].
Qed.

(** Two loops over the same entries end alike when, at every position, the
    bytes they start from are equal (positions marked by [W]) or the second
    one starts from the byte the first one ends with. *)
Lemma run_result_rel (l : list Z) :
  StronglySorted Z.lt l -> (forall j, In j l -> 0 <= j) ->
  forall (c d : list byte) (W : nat -> bool),
    length d = length c ->
    (forall p, W p = true -> nth_error d p = nth_error c p) ->
    (forall p, W p = false ->
       nth_error d p = nth_error (snd (run_result hd page_size l c)) p) ->
    run_result hd page_size l d = run_result hd page_size l c.
Proof.
  intros Hs. induction Hs as [|k l Hs IH Hk];
    intros Hpos c d W Hlen HW HnW.
  - unfold run_result in *. cbn in *. f_equal.
    apply nth_error_ext. intros p. destruct (W p) eqn:E; auto.
  - rewrite Forall_forall in Hk.
    assert (Hk0 : 0 <= k) by (apply Hpos; now left).
    assert (Hpos' : forall j, In j l -> 0 <= j)
      by (intros j Hj; apply Hpos; now right).
    assert (Ht : p_type_at hd d k = p_type_at hd c k).
    { apply (p_type_at_same hd Hwf); [assumption|]. intros p Hp.
      destruct (W p) eqn:E; [now apply HW|].
      rewrite (HnW p E). unfold run_result.
      apply run_entries_untouched; [assumption|].
      intros j Hj Hpj. refine (align_after_type hd Hwf k j p _ Hpj Hp).
      destruct Hj as [<-|Hj]; [lia|]. specialize (Hk j Hj). lia. }
    assert (Hstop : snd (run_result hd page_size (k :: l) c) = c -> d = c).
    { intros E. rewrite E in HnW. apply nth_error_ext. intros p.
      destruct (W p) eqn:Ew; auto. }
    rewrite run_result_cons in HnW, Hstop. rewrite !run_result_cons.
    rewrite step_bytes_spec in HnW, Hstop. rewrite !step_bytes_spec, Ht.
    destruct (p_type_at hd c k) as [e|t];
      [now rewrite Hstop|].
    destruct (t =? PT_LOAD); [|now apply (IH Hpos' c d W)].
    destruct (p_align_at hd c k) as [e|a] eqn:Eac;
      destruct (p_align_at hd d k) as [e'|a'] eqn:Ead.
    + now rewrite Hstop.
    + exfalso. unfold p_align_at in *.
      destruct (read_at_length d c _ _ _ _ (eq_sym Hlen) Ead) as [v Hv].
      congruence.
    + exfalso. unfold p_align_at in *.
      destruct (read_at_length c d _ _ _ _ Hlen Eac) as [v Hv].
      congruence.
    + destruct (pack (p_align_fmt hd) page_size) as [e|tb] eqn:Ep;
        [now rewrite Hstop|].
      apply read_at_inside in Eac as [Hoff Hin]; [|apply Hwf|apply Hwf].
      pose proof (pack_length _ _ _ Ep) as Hl.
      rewrite <- (wf_align_size hd Hwf) in Hl. rewrite <- Hl in Hin.
      apply (IH Hpos' _ _
               (fun p => W p
                  || ((Z.to_nat (align_pos hd k) <=? p)
                      && (p <? Z.to_nat (align_pos hd k) + length tb))%nat)).
      * rewrite !length_write_at; lia.
      * intros p Hp. rewrite !nth_error_write_at by lia.
        destruct ((Z.to_nat (align_pos hd k) <=? p)
                  && (p <? Z.to_nat (align_pos hd k) + length tb))%nat;
          [reflexivity|].
        rewrite orb_false_r in Hp. now apply HW.
      * intros p Hp. apply orb_false_iff in Hp as [Hp1 Hp2].
        rewrite nth_error_write_at by lia. rewrite Hp2. now apply HnW.
Qed.

(** Run on the bytes it left, the loop ends the same way and leaves the same
    bytes. *)
Lemma run_result_again (l : list Z) (c : list byte) :
  StronglySorted Z.lt l -> (forall j, In j l -> 0 <= j) ->
  run_result hd page_size l (snd (run_result hd page_size l c)) =
  run_result hd page_size l c.
Proof.
  intros Hs Hpos.
  apply (run_result_rel l Hs Hpos _ _ (fun _ => false)).
  - unfold run_result. now apply run_entries_length.
  - discriminate.
  - reflexivity.
Qed.

End SecondRun.

(** ** The script on the sample files *)

Example basename_lib_path : basename lib_path = "libapp.so"%string.
Proof. reflexivity. Qed.

(** 64-bit, little-endian: one write of 16384, at offset 120 + 48. *)
Example run_sample64 :
  effect (align_elf_load_segments lib_path sample64 16384) =
  (true,
   header64 LittleEndian 64 56 3
   ++ entry64 LittleEndian 6 8
   ++ entry64 LittleEndian 1 16384
   ++ entry64 LittleEndian 4 4,
   [(168, int_to_bytes LittleEndian 8 16384)]).
Proof. vm_compute. reflexivity. Qed.

(** 32-bit, big-endian: one write of 4 bytes in big-endian order, at offset
    52 + 28. *)
Example run_sample32 :
  effect (align_elf_load_segments lib_path sample32 16384) =
  (true,
   header32 BigEndian 52 32 2
   ++ entry32 BigEndian 1 16384
   ++ entry32 BigEndian 2 4,
   [(80, [x00; x00; x40; x00])]).
Proof. vm_compute. reflexivity. Qed.

(** A file cut inside the alignment field of its loadable entry: the read
    comes back short and [struct.unpack] raises. *)
Example run_sample64_cut :
  align_elf_load_segments lib_path (firstn 170 sample64) 16384 =
  mkOutcome false (firstn 170 sample64) []
            [ErrorProcessing "libapp.so"%string StructError].
Proof. vm_compute. reflexivity. Qed.

(** * The properties of the specification *)

(** ** Rejection of files without the magic number *)

(** C3: a file whose first four bytes are not the ELF magic sequence makes
    the operation return failure, after printing that the file is not an ELF
    file; no write is made and every byte of the file is as before. *)
Theorem not_elf_rejected (filepath : string) (file : list byte)
    (page_size : Z) :
  firstn 4 file <> elf_magic ->
  let o := align_elf_load_segments filepath file page_size in
  returned o = false /\ file_after o = file /\ writes o = [] /\
  printed o = [NotAnElfFile (basename filepath)].
Proof.
  intros Hm.
  unfold align_elf_load_segments, align_body, bind, f_read, print, ret.
  cbn [content position write_log stdout]. rewrite magic_slice.
  destruct (bytes_eqb (firstn 4 file) elf_magic) eqn:E.
  - apply bytes_eqb_eq in E. contradiction.
  - cbn. repeat split.
Qed.

Lemma not_elf_rejected_witness :
  firstn 4 (zeros 100) <> elf_magic /\
  let o := align_elf_load_segments lib_path (zeros 100) 16384 in
  returned o = false /\ file_after o = zeros 100 /\ writes o = [] /\
  printed o = [NotAnElfFile (basename lib_path)].
Proof.
  split; [discriminate|].
  apply (not_elf_rejected lib_path (zeros 100) 16384). discriminate.
Defined.

(** ** Files too short for a header *)

(** C7, as amended: a file shorter than 46 bytes, or one of class 2 (64-bit)
    shorter than 58 bytes, makes the operation return failure; no write is
    made and the file is as before.  (46 and 58 are the ends of the last
    header field read for each class.) *)
Theorem short_file_rejected (filepath : string) (file : list byte)
    (page_size : Z) :
  (length file < 46)%nat \/
  (index file 4 = inr 2 /\ (length file < 58)%nat) ->
  let o := align_elf_load_segments filepath file page_size in
  returned o = false /\ file_after o = file /\ writes o = [].
Proof.
  intros Hshort.
  assert (E : header_of file = None).
  { destruct (header_of file) as [hd|] eqn:E; [|reflexivity]. exfalso.
    apply header_of_inv in E as (_ & c & Hc & _ & Hlen).
    destruct Hshort as [H|[H4 H]].
    - destruct (c =? 2); lia.
    - rewrite H4 in Hc. injection Hc as <-. cbn in Hlen. lia. }
  pose proof (effect_no_header filepath file page_size E) as H.
  unfold effect in H. injection H as H1 H2 H3. now repeat split.
Qed.

Lemma short_file_rejected_witness :
  ((length (firstn 57 sample64) < 46)%nat \/
   (index (firstn 57 sample64) 4 = inr 2 /\
    (length (firstn 57 sample64) < 58)%nat)) /\
  let o := align_elf_load_segments lib_path (firstn 57 sample64) 16384 in
  returned o = false /\ file_after o = firstn 57 sample64 /\ writes o = [].
Proof.
  assert (H : (length (firstn 57 sample64) < 46)%nat \/
              (index (firstn 57 sample64) 4 = inr 2 /\
               (length (firstn 57 sample64) < 58)%nat)).
  { right. split; [reflexivity|]. vm_compute. lia. }
  split; [exact H|].
  exact (short_file_rejected lib_path (firstn 57 sample64) 16384 H).
Defined.

(** C7, as stated, fails: the 52 bytes of a 32-bit header that announces no
    program header are a file shorter than 64 bytes on which the operation
    returns success. *)
Lemma short_file_accepted :
  (length (header32 LittleEndian 52 32 0) < 64)%nat /\
  returned (align_elf_load_segments lib_path (header32 LittleEndian 52 32 0)
                                    16384) = true.
Proof.
  split; [vm_compute; lia|vm_compute; reflexivity].
Qed.

(** ** Files that need no change *)

(** C8: when the header is decoded, the type of every entry can be read and
    every loadable entry already has the target alignment, the operation
    returns success, makes no write, and leaves every byte as it was. *)
Theorem already_aligned_noop (filepath : string) (file : list byte)
    (page_size : Z) (hd : phdr_info) :
  header_of file = Some hd ->
  (forall i, 0 <= i < e_phnum hd ->
     exists t, p_type_at hd file i = inr t /\
               (t = PT_LOAD -> p_align_at hd file i = inr page_size)) ->
  let o := align_elf_load_segments filepath file page_size in
  returned o = true /\ writes o = [] /\ file_after o = file.
Proof.
  intros Hh Hal.
  pose proof (effect_header filepath file page_size hd Hh) as H.
  rewrite run_entries_noop in H.
  - unfold effect in H. injection H as H1 H2 H3. now repeat split.
  - intros i Hi. apply Hal. now apply in_range.
Qed.

Lemma sample64_entries (P : Z -> Prop) :
  P 0 -> P 1 -> P 2 -> forall i, 0 <= i < e_phnum sample64_info -> P i.
Proof.
  intros H0 H1 H2 i Hi. cbn in Hi.
  assert (E : i = 0 \/ i = 1 \/ i = 2) by lia.
  destruct E as [->|[->| ->]]; assumption.
Defined.

Lemma already_aligned_noop_witness :
  let o := align_elf_load_segments lib_path sample64 4096 in
  returned o = true /\ writes o = [] /\ file_after o = sample64.
Proof.
  apply (already_aligned_noop lib_path sample64 4096 sample64_info).
  - vm_compute. reflexivity.
  - apply sample64_entries.
    + exists 6. split; [vm_compute; reflexivity|discriminate].
    + exists 1. split; vm_compute; reflexivity.
    + exists 4. split; [vm_compute; reflexivity|discriminate].
Defined.

(** ** A target that cannot be encoded *)

(** C9: when the target alignment does not fit the alignment field of the
    file (it is negative, or at least 2^32 for a 32-bit file, 2^64 for a
    64-bit one) and the file has a loadable entry, the operation returns
    failure, makes no write, and leaves the file as it was.  (The alignment
    of that entry always differs from such a target, a decoded field being in
    range; so that part of the claim need not be assumed.) *)
Theorem unrepresentable_target_fails (filepath : string) (file : list byte)
    (page_size : Z) (hd : phdr_info) :
  header_of file = Some hd ->
  ~ (0 <= page_size < 2 ^ (8 * Z.of_nat (p_align_size hd))) ->
  (exists i, 0 <= i < e_phnum hd /\ p_type_at hd file i = inr PT_LOAD) ->
  let o := align_elf_load_segments filepath file page_size in
  returned o = false /\ file_after o = file /\ writes o = [].
Proof.
  intros Hh Hr (i & Hi & Ht).
  pose proof (effect_header filepath file page_size hd Hh) as H.
  destruct (run_entries_unrep hd page_size (header_of_wf file hd Hh) Hr
              (range (e_phnum hd)) file) as (H1 & H2 & H3).
  destruct (run_entries hd page_size (range (e_phnum hd)) file) as [[b c] w].
  cbn [fst snd] in *. unfold effect in H. injection H as -> -> ->.
  repeat split; trivial. apply H3. exists i. split; [|assumption].
  now apply in_range.
Qed.

Lemma unrepresentable_target_fails_witness :
  let o := align_elf_load_segments lib_path sample32 (2 ^ 32) in
  returned o = false /\ file_after o = sample32 /\ writes o = [].
Proof.
  apply (unrepresentable_target_fails lib_path sample32 (2 ^ 32)
           sample32_info).
  - vm_compute. reflexivity.
  - cbn. lia.
  - exists 0. split; [cbn; lia|vm_compute; reflexivity].
Defined.

(** ** Determinism *)



(** ** Exactness *)

(** The loop leaves the 64 bytes read as the header alone when no alignment
    field lies there. *)
Lemma run_entries_header (hd : phdr_info) (page_size : Z) (file : list byte) :
  wf_info hd -> table_after_header hd = true ->
  bytes_at (snd (fst (run_entries hd page_size (range (e_phnum hd)) file)))
           0 64 = bytes_at file 0 64.
Proof.
  intros Hwf Ht. apply Z.leb_le in Ht.
  apply bytes_at_ext. intros p Hp.
  apply run_entries_untouched; [assumption|].
  intros j Hj [H1 H2]. apply in_range in Hj.
  pose proof (ph_offset_mono hd Hwf 0 j (proj1 Hj)) as Hm.
  unfold align_pos, ph_offset in *. lia.
Qed.

(** And then the file it leaves has the header it started from. *)
Lemma header_kept (filepath : string) (file : list byte) (page_size : Z)
    (hd : phdr_info) :
  header_of file = Some hd -> table_after_header hd = true ->
  header_of (file_after (align_elf_load_segments filepath file page_size))
  = Some hd.
Proof.
  intros Hh Ht.
  pose proof (effect_header filepath file page_size hd Hh) as H.
  pose proof (run_entries_header hd page_size file (header_of_wf file hd Hh)
                Ht) as Hhdr.
  rewrite <- H in Hhdr. cbn [effect fst snd] in Hhdr.
  unfold header_of in *. now rewrite Hhdr.
Qed.

(** C1, as amended: when the alignment fields of distinct entries do not
    overlap (the entry size is at least the width of the field) and the
    operation returns success, every entry of the table whose type field in
    the resulting file is 1 has, in the resulting file, an alignment field
    that decodes, in the byte order and width of the file, to the target.
    The table is the one the header announced before the call; the
    resulting file has that same header when no alignment field lies in its
    first 64 bytes. *)
Theorem loadable_entries_aligned (filepath : string) (file : list byte)
    (page_size : Z) (hd : phdr_info) :
  header_of file = Some hd ->
  align_fields_disjoint hd = true ->
  let o := align_elf_load_segments filepath file page_size in
  returned o = true ->
  (forall i, 0 <= i < e_phnum hd ->
     p_type_at hd (file_after o) i = inr PT_LOAD ->
     p_align_at hd (file_after o) i = inr page_size) /\
  (table_after_header hd = true -> header_of (file_after o) = Some hd).
Proof.
  intros Hh Hd o Hok. split; [|now apply header_kept].
  intros i Hi Ht.
  pose proof (effect_header filepath file page_size hd Hh) as H.
  fold o in H. unfold effect in H.
  pose proof (run_entries_aligned hd page_size (header_of_wf file hd Hh) Hd
                (range (e_phnum hd)) file (range_sorted _)) as Hal.
  rewrite <- H in Hal. cbn [fst snd] in Hal.
  apply Hal; trivial.
  - intros j Hj. apply in_range in Hj. lia.
  - now apply in_range.
Qed.

Lemma loadable_entries_aligned_witness :
  let o := align_elf_load_segments lib_path sample64 16384 in
  p_align_at sample64_info (file_after o) 1 = inr 16384 /\
  header_of (file_after o) = Some sample64_info.
Proof.
  destruct (loadable_entries_aligned lib_path sample64 16384 sample64_info)
    as [Hal Hhd].
  - vm_compute. reflexivity.
  - vm_compute. reflexivity.
  - vm_compute. reflexivity.
  - split.
    + apply (Hal 1); [cbn; lia|]. vm_compute. reflexivity.
    + apply Hhd. vm_compute. reflexivity.
Defined.

(** C1, as stated, fails: on a file whose two loadable entries are 4 bytes
    apart the operation returns success, and the alignment field of the
    first entry, half of it overwritten by the write for the second, does not
    decode to the target. *)
Lemma overlapping_entries_not_aligned :
  let o := align_elf_load_segments lib_path overlap64 16384 in
  header_of overlap64 = Some overlap64_info /\
  returned o = true /\
  p_type_at overlap64_info (file_after o) 0 = inr PT_LOAD /\
  p_align_at overlap64_info (file_after o) 0 = inr (16384 * 2 ^ 32 + 16384) /\
  p_align_at overlap64_info (file_after o) 0 <> inr 16384.
Proof.
  vm_compute. repeat split; discriminate.
Qed.

(** ** Non-interference *)

Lemma nth_error_dec (c c' : list byte) (p : nat) :
  {nth_error c' p = nth_error c p} + {nth_error c' p <> nth_error c p}.
Proof.
  decide equality. apply Byte.byte_eq_dec.
Defined.

(** C2, as amended: whatever the file and the target, the operation keeps
    the length of the file, and every byte it changes lies in the alignment
    field of an entry of the table that is loadable in the resulting file
    (and, when entries do not overlap, in the file as it was).  When entries
    do not overlap (the entry size reaches the end of the alignment field:
    56 bytes for 64-bit, 32 for 32-bit), the alignment field of every entry
    that is not loadable keeps its bytes. *)
Theorem only_load_alignments_change (filepath : string) (file : list byte)
    (page_size : Z) :
  let o := align_elf_load_segments filepath file page_size in
  length (file_after o) = length file /\
  (forall p, nth_error (file_after o) p <> nth_error file p ->
     exists hd i, header_of file = Some hd /\ 0 <= i < e_phnum hd /\
       in_align_field hd i p /\
       p_type_at hd (file_after o) i = inr PT_LOAD /\
       (entries_disjoint hd = true -> p_type_at hd file i = inr PT_LOAD)) /\
  (forall hd i, header_of file = Some hd -> entries_disjoint hd = true ->
     0 <= i < e_phnum hd -> p_type_at hd file i <> inr PT_LOAD ->
     bytes_at (file_after o) (align_pos hd i) (p_align_size hd) =
     bytes_at file (align_pos hd i) (p_align_size hd)).
Proof.
  intros o. destruct (header_of file) as [hd|] eqn:Hh.
  - pose proof (effect_header filepath file page_size hd Hh) as H.
    fold o in H. unfold effect in H.
    pose proof (header_of_wf file hd Hh) as Hwf.
    assert (Hpos : forall j, In j (range (e_phnum hd)) -> 0 <= j)
      by (intros j Hj; apply in_range in Hj; lia).
    pose proof (run_entries_length hd page_size Hwf (range (e_phnum hd)) file)
      as Hlen.
    pose proof (fun p => run_entries_changed_after hd page_size Hwf
                  (range (e_phnum hd)) file p (range_sorted _) Hpos) as Hch.
    pose proof (fun Hd => run_entries_types hd page_size Hwf Hd
                  (range (e_phnum hd)) file) as Hty.
    rewrite <- H in Hlen, Hch, Hty. cbn [fst snd] in Hlen, Hch, Hty.
    split; [exact Hlen|]. split.
    + intros p Hp. destruct (Hch p Hp) as (j & Hj & Htj & Hpj).
      apply in_range in Hj. exists hd, j.
      split; [reflexivity|]. split; [assumption|]. split; [assumption|].
      split; [assumption|].
      intros Hd. rewrite <- (Hty Hd j) by lia. assumption.
    + intros hd' i Hhd' Hd Hi Hnl. injection Hhd' as <-.
      apply bytes_at_ext. intros p Hp.
      destruct (nth_error_dec file (file_after o) p) as [E|E]; [exact E|].
      exfalso. destruct (Hch p E) as (j & Hj & Htj & Hpj).
      apply in_range in Hj. rewrite (Hty Hd j) in Htj by lia.
      destruct (Z.eq_dec i j) as [->|Hij]; [contradiction|].
      refine (entries_disjoint_align hd Hwf i j p Hd Hij Hpj _).
      pose proof (ph_offset_nonneg hd Hwf i (proj1 Hi)).
      unfold in_align_field, align_pos in *. destruct Hwf. lia.
  - pose proof (effect_no_header filepath file page_size Hh) as H.
    fold o in H. unfold effect in H. injection H as _ H _. rewrite H.
    split; [reflexivity|]. split; [|discriminate].
    intros p Hp. now contradiction Hp.
Qed.

Lemma only_load_alignments_change_witness :
  let o := align_elf_load_segments lib_path sample64 16384 in
  length (file_after o) = length sample64 /\
  bytes_at (file_after o) (align_pos sample64_info 2) 8 =
  bytes_at sample64 (align_pos sample64_info 2) 8.
Proof.
  intros o.
  destruct (only_load_alignments_change lib_path sample64 16384)
    as (Hlen & _ & Hkeep).
  split; [exact Hlen|].
  apply (Hkeep sample64_info 2).
  - vm_compute. reflexivity.
  - vm_compute. reflexivity.
  - cbn. lia.
  - vm_compute. discriminate.
Defined.

(** C2, as stated, fails: on a file whose two entries are 4 bytes apart, the
    second of type 0, the write for the first, loadable, entry changes bytes
    of the alignment field of the second. *)
Lemma overlapping_null_entry_changed :
  let o := align_elf_load_segments lib_path overlap64_null 16384 in
  header_of overlap64_null = Some overlap64_info /\
  p_type_at overlap64_info overlap64_null 1 = inr 0 /\
  p_type_at overlap64_info (file_after o) 1 = inr 0 /\
  bytes_at (file_after o) (align_pos overlap64_info 1) 8 <>
  bytes_at overlap64_null (align_pos overlap64_info 1) 8.
Proof.
  vm_compute. repeat split; discriminate.
Qed.

(** ** Idempotence *)

(** C4, as amended: when no alignment field of the table lies in the first
    64 bytes of the file, which the operation reads as the header, a second
    run with the same target on the file the first run left leaves that file
    byte for byte as it is and returns what the first run returned; when
    moreover the alignment fields of distinct entries do not overlap, the
    second run makes no write at all. *)
Theorem second_run_changes_nothing (filepath : string) (file : list byte)
    (page_size : Z) :
  header_apart file = true ->
  let o1 := align_elf_load_segments filepath file page_size in
  let o2 := align_elf_load_segments filepath (file_after o1) page_size in
  file_after o2 = file_after o1 /\ returned o2 = returned o1 /\
  ((forall hd, header_of file = Some hd -> align_fields_disjoint hd = true) ->
   writes o2 = []).
Proof.
  intros Hsep o1 o2. unfold header_apart in Hsep.
  destruct (header_of file) as [hd|] eqn:Hh.
  - pose proof (header_of_wf file hd Hh) as Hwf.
    pose proof (effect_header filepath file page_size hd Hh) as H1.
    fold o1 in H1. unfold effect in H1.
    assert (Hpos : forall j, In j (range (e_phnum hd)) -> 0 <= j)
      by (intros j Hj; apply in_range in Hj; lia).
    pose proof (run_result_again hd page_size Hwf (range (e_phnum hd)) file
                  (range_sorted _) Hpos) as Hag.
    pose proof (fun Hd => run_entries_again hd page_size Hwf Hd
                  (range (e_phnum hd)) file (range_sorted _) Hpos) as Hnw.
    unfold run_result in Hag.
    rewrite <- H1 in Hag, Hnw. cbn [fst snd] in Hag, Hnw.
    assert (Hh2 : header_of (file_after o1) = Some hd)
      by now apply header_kept.
    pose proof (effect_header filepath (file_after o1) page_size hd Hh2)
      as H2.
    fold o2 in H2. unfold effect in H2.
    rewrite <- H2 in Hag, Hnw. cbn [fst] in Hag.
    injection Hag as E1 E2. split; [assumption|]. split; [assumption|].
    intros Hd. specialize (Hnw (Hd hd eq_refl)). now injection Hnw.
  - pose proof (effect_no_header filepath file page_size Hh) as H1.
    fold o1 in H1. unfold effect in H1. injection H1 as E1 E2 E3.
    subst o2. rewrite E2. fold o1. now repeat split.
Qed.

Lemma second_run_changes_nothing_witness :
  header_apart sample32 = true /\
  let o1 := align_elf_load_segments lib_path sample32 16384 in
  let o2 := align_elf_load_segments lib_path (file_after o1) 16384 in
  file_after o2 = file_after o1 /\ returned o2 = returned o1.
Proof.
  split; [vm_compute; reflexivity|].
  destruct (second_run_changes_nothing lib_path sample32 16384)
    as (H1 & H2 & _).
  - vm_compute. reflexivity.
  - split; assumption.
Defined.

(** C4, as stated, fails: on a file whose only announced entry has its
    alignment field on the header fields e_phentsize and e_phnum, a first run
    with target 131104 (bytes 20 00 02 00) succeeds and makes the header
    announce two entries; the second run then rewrites the alignment of the
    second one. *)
Lemma second_run_changes_file :
  let o1 := align_elf_load_segments lib_path header_overlap32 131104 in
  let o2 := align_elf_load_segments lib_path (file_after o1) 131104 in
  returned o1 = true /\ returned o2 = true /\
  writes o1 = [(42, int_to_bytes LittleEndian 4 131104)] /\
  writes o2 = [(74, int_to_bytes LittleEndian 4 131104)] /\
  file_after o2 <> file_after o1.
Proof.
  vm_compute. repeat split; discriminate.
Qed.

(** ** Truncated tables *)

(** C5, as amended: the operation returns failure when the type field of
    some entry of the table reaches past the end of the file, and, for
    entries that do not overlap, when the alignment field of some loadable
    entry does.  It does not look at the other bytes of the table: for
    entries that do not overlap and a target that fits the alignment field,
    it returns success as soon as the type field of every entry and the
    alignment field of every loadable entry can be read. *)
Theorem unreadable_field_fails (filepath : string) (file : list byte)
    (page_size : Z) (hd : phdr_info) :
  header_of file = Some hd ->
  let o := align_elf_load_segments filepath file page_size in
  ((exists i, 0 <= i < e_phnum hd /\
              Z.of_nat (length file) < ph_offset hd i + 4) \/
   (entries_disjoint hd = true /\
    exists i, 0 <= i < e_phnum hd /\ p_type_at hd file i = inr PT_LOAD /\
              Z.of_nat (length file)
              < align_pos hd i + Z.of_nat (p_align_size hd)) ->
   returned o = false) /\
  (entries_disjoint hd = true ->
   0 <= page_size < 2 ^ (8 * Z.of_nat (p_align_size hd)) ->
   (forall i, 0 <= i < e_phnum hd ->
      exists t, p_type_at hd file i = inr t /\
                (t = PT_LOAD -> exists a, p_align_at hd file i = inr a)) ->
   returned o = true).
Proof.
  intros Hh o.
  pose proof (header_of_wf file hd Hh) as Hwf.
  pose proof (effect_header filepath file page_size hd Hh) as H.
  fold o in H. unfold effect in H.
  assert (Hpos : forall j, In j (range (e_phnum hd)) -> 0 <= j)
    by (intros j Hj; apply in_range in Hj; lia).
  split.
  - intros Hcut.
    assert (E : fst (fst (run_entries hd page_size (range (e_phnum hd)) file))
                = false).
    { destruct Hcut as [(i & Hi & Hlen)|(Hd & i & Hi & Ht & Hlen)].
      - apply (run_entries_no_type hd page_size Hwf _ _ i); trivial; [|lia].
        now apply in_range.
      - destruct (read_at_short file (align_pos hd i) (p_align_size hd)
                    (p_align_fmt hd)) as [e He]; trivial;
          try apply Hwf.
        + pose proof (ph_offset_nonneg hd Hwf i (proj1 Hi)).
          unfold align_pos. destruct Hwf. lia.
        + apply (run_entries_no_align hd page_size Hwf Hd _ _ i e); trivial.
          now apply in_range. }
    rewrite <- H in E. exact E.
  - intros Hd Hr Hread.
    assert (E : fst (fst (run_entries hd page_size (range (e_phnum hd)) file))
                = true).
    { apply (run_entries_readable hd page_size Hwf Hd); trivial.
      intros i Hi. apply Hread. now apply in_range. }
    rewrite <- H in E. exact E.
Qed.

Lemma unreadable_field_fails_witness :
  returned (align_elf_load_segments lib_path (firstn 178 sample64) 4096)
  = false /\
  returned (align_elf_load_segments lib_path (firstn 180 sample64) 16384)
  = true.
Proof.
  split.
  - destruct (unreadable_field_fails lib_path (firstn 178 sample64) 4096
                sample64_info) as [Hfail _]; [vm_compute; reflexivity|].
    apply Hfail. left. exists 2. split; [cbn; lia|]. vm_compute. reflexivity.
  - destruct (unreadable_field_fails lib_path (firstn 180 sample64) 16384
                sample64_info) as [_ Hok]; [vm_compute; reflexivity|].
    apply Hok; [vm_compute; reflexivity|cbn; lia|].
    apply sample64_entries.
    + exists 6. split; [vm_compute; reflexivity|discriminate].
    + exists 1. split; [vm_compute; reflexivity|].
      intros _. exists 4096. vm_compute. reflexivity.
    + exists 4. split; [vm_compute; reflexivity|discriminate].
Defined.

(** C5, as stated, fails: a file cut 4 bytes into its third and last entry,
    which is not loadable, has a table that reaches past its end, and the
    operation returns success on it. *)
Lemma truncated_table_accepted :
  header_of (firstn 180 sample64) = Some sample64_info /\
  Z.of_nat (length (firstn 180 sample64))
  < e_phoff sample64_info + e_phnum sample64_info * e_phentsize sample64_info
  /\ returned (align_elf_load_segments lib_path (firstn 180 sample64) 16384)
     = true.
Proof.
  vm_compute. repeat split.
Qed.

(** ** Marker bytes *)

(** C6, as amended: a file with the magic number is not rejected for its
    class or byte order marker.  Whatever the two bytes are, once the file
    reaches the last header field read (offset 58 for class 2, 46 otherwise)
    the header is decoded, every class other than 2 as 32-bit (alignment at
    entry offset 28, 4 bytes) and every byte order other than 1 as
    big-endian, and the outcome is that of the loop over the entries so
    located. *)
Theorem markers_not_validated (filepath : string) (file : list byte)
    (page_size c d : Z) :
  firstn 4 file = elf_magic ->
  index file 4 = inr c -> index file 5 = inr d ->
  (if c =? 2 then (58 <= length file)%nat else (46 <= length file)%nat) ->
  exists hd, header_of file = Some hd /\
    is_64bit hd = (c =? 2) /\
    endian hd = (if d =? 1 then LittleEndian else BigEndian) /\
    p_align_offset hd = (if c =? 2 then 48 else 28) /\
    p_align_fmt hd = (endian hd, if c =? 2 then fmt_Q else fmt_I) /\
    effect (align_elf_load_segments filepath file page_size) =
    run_entries hd page_size (range (e_phnum hd)) file.
Proof.
  intros Hm Hc Hd Hlen.
  destruct (read_header_ok (bytes_at file 0 64) c d)
    as (hd & Hr & H64 & He & Ho & Hf & _).
  - rewrite index_header by lia. exact Hc.
  - rewrite index_header by lia. exact Hd.
  - rewrite bytes_at_0, length_firstn. destruct (c =? 2); lia.
  - assert (Hh : header_of file = Some hd).
    { unfold header_of. rewrite magic_slice, Hm.
      replace (bytes_eqb elf_magic elf_magic) with true by reflexivity.
      now rewrite Hr. }
    exists hd. repeat split; trivial. now apply effect_header.
Qed.

Lemma markers_not_validated_witness :
  exists hd, header_of odd_markers = Some hd /\
    is_64bit hd = false /\ endian hd = BigEndian /\
    p_align_offset hd = 28 /\ p_align_fmt hd = (endian hd, fmt_I) /\
    effect (align_elf_load_segments lib_path odd_markers 16384) =
    run_entries hd 16384 (range (e_phnum hd)) odd_markers.
Proof.
  apply (markers_not_validated lib_path odd_markers 16384 7 9).
  - reflexivity.
  - reflexivity.
  - reflexivity.
  - vm_compute. lia.
Defined.

(** C6, as stated, fails: a file with the magic number, class marker 7 and
    byte order marker 9 is read as a 32-bit big-endian file without program
    headers, and the operation returns success. *)
Lemma odd_markers_accepted :
  index odd_markers 4 = inr 7 /\ index odd_markers 5 = inr 9 /\
  effect (align_elf_load_segments lib_path odd_markers 16384)
  = (true, odd_markers, []).
Proof.
  vm_compute. repeat split.
Qed.

(** * Further properties of the script *)

(** ** More on the header and the loop *)

Lemma read_header_fields (b : list byte) (hd : phdr_info) :
  read_header b = inr hd ->
  28 <= p_align_offset hd /\ fst (p_align_fmt hd) = endian hd /\
  e_phentsize hd < 65536 /\ e_phnum hd < 65536.
Proof.
  unfold read_header, rbind.
  destruct (index b 4) as [|ei_class]; [discriminate|].
  destruct (index b 5) as [|ei_data]; [discriminate|].
  destruct (ei_class =? 2).
  - destruct (unpack _ (py_slice b 32 40)); [discriminate|].
    destruct (unpack _ (py_slice b 54 56)) as [|s] eqn:Es; [discriminate|].
    destruct (unpack _ (py_slice b 56 58)) as [|n] eqn:En; [discriminate|].
    apply unpack_range in Es, En. cbn in Es, En.
    intros H. injection H as <-. cbn. repeat split; lia.
  - destruct (unpack _ (py_slice b 28 32)); [discriminate|].
    destruct (unpack _ (py_slice b 42 44)) as [|s] eqn:Es; [discriminate|].
    destruct (unpack _ (py_slice b 44 46)) as [|n] eqn:En; [discriminate|].
    apply unpack_range in Es, En. cbn in Es, En.
    intros H. injection H as <-. cbn. repeat split; lia.
Qed.

Lemma header_of_fields (file : list byte) (hd : phdr_info) :
  header_of file = Some hd ->
  28 <= p_align_offset hd /\ fst (p_align_fmt hd) = endian hd /\
  e_phentsize hd < 65536 /\ e_phnum hd < 65536.
Proof.
  unfold header_of. destruct (bytes_eqb _ _); [|discriminate].
  destruct (read_header _) eqn:E; [discriminate|].
  intros H. injection H as <-. eapply read_header_fields, E.
Qed.

(** The exceptions of lines 34-73: an index out of range when the header has
    fewer than 6 bytes, [struct.error] otherwise. *)
Lemma read_header_error (b : list byte) (e : exn) :
  read_header b = inl e ->
  if (length b <? 6)%nat then e = IndexError else e = StructError.
Proof.
  unfold read_header, rbind, index.
  destruct (nth_error b 4) as [x4|] eqn:E4.
  - destruct (nth_error b 5) as [x5|] eqn:E5.
    + assert (Hl : (5 < length b)%nat)
        by (apply nth_error_Some; congruence).
      destruct (Nat.ltb_spec (length b) 6); [lia|].
      unfold unpack.
      repeat match goal with
      | |- context [if ?c then _ else _] => destruct c
      end; intros He; congruence.
    + apply nth_error_None in E5.
      destruct (Nat.ltb_spec (length b) 6); [|lia]. congruence.
  - apply nth_error_None in E4.
    destruct (Nat.ltb_spec (length b) 6); [|lia]. congruence.
Qed.

Lemma pack_value (f : struct_fmt) (v : Z) (bs : list byte) :
  pack f v = inr bs ->
  bs = int_to_bytes (fst f) (calcsize f) v /\
  0 <= v < 2 ^ (8 * Z.of_nat (calcsize f)).
Proof.
  unfold pack.
  destruct (Z.leb_spec 0 v), (Z.ltb_spec v (2 ^ (8 * Z.of_nat (calcsize f))));
    cbn [andb]; try discriminate.
  intros Hp. injection Hp as <-. split; [reflexivity|lia].
Qed.

Section Log.

Variables (hd : phdr_info) (page_size : Z).
Hypothesis Hwf : wf_info hd.

Local Abbreviation run := (run_entries hd page_size).

(** Every write of the loop puts the packed target into the alignment field
    of an entry visited, inside the file. *)
Lemma run_entries_log (l : list Z) (c : list byte) (off : Z)
    (bs : list byte) :
  In (off, bs) (snd (run l c)) ->
  (exists j, In j l /\ off = align_pos hd j) /\
  pack (p_align_fmt hd) page_size = inr bs /\
  0 <= off /\ (Z.to_nat off + length bs <= length c)%nat.
Proof.
  revert c. induction l as [|i l IH]; intros c; [intros []|].
  cbn [run_entries].
  pose proof (entry_step_cases hd page_size Hwf c i) as Hc.
  destruct (entry_step hd page_size c i) as [e|[[off' bs']|]].
  - intros [].
  - destruct Hc as (-> & _ & Hoff & Hin & Hl & Hu).
    specialize (IH (write_at c (align_pos hd i) bs')).
    destruct (run_entries hd page_size l (write_at c (align_pos hd i) bs'))
      as [[b c'] w].
    cbn [fst snd] in *. intros [H|H].
    + injection H as <- <-. split; [exists i; split; [now left|reflexivity]|].
      split; [now apply pack_unpack|]. split; [lia|assumption].
    + destruct (IH H) as ((j & Hj & Hjo) & Hp & H0 & Hb).
      split; [exists j; split; [now right|assumption]|].
      split; [assumption|]. split; [assumption|].
      now rewrite length_write_at in Hb.
  - intros H. destruct (IH c H) as ((j & Hj & Hjo) & Hrest).
    split; [exists j; split; [now right|assumption]|assumption].
Qed.

(** At most one write for each entry visited. *)
Lemma run_entries_count (l : list Z) (c : list byte) :
  (length (snd (run l c)) <= length l)%nat.
Proof.
  revert c. induction l as [|i l IH]; intros c; [cbn; lia|].
  cbn [run_entries].
  destruct (entry_step hd page_size c i) as [e|[[off bs]|]].
  - cbn. lia.
  - specialize (IH (write_at c off bs)).
    destruct (run_entries hd page_size l (write_at c off bs)) as [[b c'] w].
    cbn [fst snd length] in *. lia.
  - specialize (IH c). cbn [length]. lia.
Qed.


End Log.

Lemma length_range (n : Z) : length (range n) = Z.to_nat n.
Proof.
  unfold range. now rewrite length_map, length_seq.
Qed.

Lemma firstn_ext (c c' : list byte) (n : nat) :
  (forall p, (p < n)%nat -> nth_error c' p = nth_error c p) ->
  firstn n c' = firstn n c.
Proof.
  intros H. apply nth_error_ext. intros p. rewrite !nth_error_firstn.
  destruct (Nat.ltb_spec p n); [now apply H|reflexivity].
Qed.

(** ** What is written *)

(** X1: every [f.write] of the operation writes the packed target, of the
    width of the alignment field, at the alignment field of an entry of the
    table, and inside the file; so the target fits the field whenever a write
    is made. *)
Theorem writes_are_alignment_fields (filepath : string) (file : list byte)
    (page_size off : Z) (bs : list byte) :
  In (off, bs) (writes (align_elf_load_segments filepath file page_size)) ->
  exists hd i, header_of file = Some hd /\ 0 <= i < e_phnum hd /\
    off = align_pos hd i /\
    bs = packed_target hd page_size /\
    0 <= page_size < 2 ^ (8 * Z.of_nat (p_align_size hd)) /\
    off + Z.of_nat (p_align_size hd) <= Z.of_nat (length file).
Proof.
  intros Hin. destruct (header_of file) as [hd|] eqn:Hh.
  - pose proof (header_of_wf file hd Hh) as Hwf.
    destruct (header_of_fields file hd Hh) as (_ & Hf & _).
    pose proof (effect_header filepath file page_size hd Hh) as H.
    unfold effect in H.
    pose proof (run_entries_log hd page_size Hwf (range (e_phnum hd)) file
                  off bs) as Hlog.
    rewrite <- H in Hlog. cbn [snd] in Hlog.
    destruct (Hlog Hin) as ((j & Hj & ->) & Hp & H0 & Hb).
    apply in_range in Hj. apply pack_value in Hp as [-> Hr].
    rewrite length_int_to_bytes in Hb.
    rewrite <- (wf_align_size hd Hwf) in *. rewrite Hf.
    exists hd, j. repeat split; trivial; lia.
  - pose proof (effect_no_header filepath file page_size Hh) as H.
    unfold effect in H. injection H as _ _ H. rewrite H in Hin.
    destruct Hin.
Qed.

Lemma writes_are_alignment_fields_witness :
  exists hd i, header_of sample32 = Some hd /\ 0 <= i < e_phnum hd /\
    80 = align_pos hd i /\
    [x00; x00; x40; x00] = packed_target hd 16384 /\
    0 <= 16384 < 2 ^ (8 * Z.of_nat (p_align_size hd)) /\
    80 + Z.of_nat (p_align_size hd) <= Z.of_nat (length sample32).
Proof.
  apply (writes_are_alignment_fields lib_path sample32 16384 80
           [x00; x00; x40; x00]).
  vm_compute. left. reflexivity.
Defined.

(** X2: the operation makes at most one write for each entry the header
    announces, hence fewer than 65536 writes. *)
Theorem writes_bounded (filepath : string) (file : list byte)
    (page_size : Z) (hd : phdr_info) :
  header_of file = Some hd ->
  Z.of_nat (length (writes (align_elf_load_segments filepath file page_size)))
  <= e_phnum hd < 65536.
Proof.
  intros Hh. pose proof (header_of_wf file hd Hh) as Hwf.
  destruct (header_of_fields file hd Hh) as (_ & _ & _ & Hn).
  pose proof (effect_header filepath file page_size hd Hh) as H.
  unfold effect in H.
  pose proof (run_entries_count hd page_size (range (e_phnum hd)) file)
    as Hc.
  rewrite <- H, length_range in Hc. cbn [snd] in Hc.
  destruct Hwf. lia.
Qed.

Lemma writes_bounded_witness :
  Z.of_nat (length (writes (align_elf_load_segments lib_path sample64 16384)))
  <= e_phnum sample64_info < 65536.
Proof.
  apply (writes_bounded lib_path sample64 16384 sample64_info).
  vm_compute. reflexivity.
Defined.


(** X4: the operation never changes a byte before the alignment field of the
    first entry; in particular the first 28 bytes of the file, which hold the
    magic number and the class and byte order markers, are kept. *)
Theorem leading_bytes_kept (filepath : string) (file : list byte)
    (page_size : Z) :
  let o := align_elf_load_segments filepath file page_size in
  firstn 28 (file_after o) = firstn 28 file /\
  (forall hd, header_of file = Some hd ->
     firstn (Z.to_nat (e_phoff hd + p_align_offset hd)) (file_after o) =
     firstn (Z.to_nat (e_phoff hd + p_align_offset hd)) file).
Proof.
  intros o. destruct (header_of file) as [hd|] eqn:Hh.
  - pose proof (header_of_wf file hd Hh) as Hwf.
    destruct (header_of_fields file hd Hh) as (Ho & _).
    pose proof (effect_header filepath file page_size hd Hh) as H.
    fold o in H. unfold effect in H.
    assert (Hkeep : forall p,
              Z.of_nat p < e_phoff hd + p_align_offset hd ->
              nth_error (file_after o) p = nth_error file p).
    { intros p Hp.
      pose proof (run_entries_untouched hd page_size Hwf
                    (range (e_phnum hd)) file p) as Hu.
      rewrite <- H in Hu. cbn [fst snd] in Hu. apply Hu.
      intros j Hj [H1 H2]. apply in_range in Hj.
      pose proof (ph_offset_mono hd Hwf 0 j (proj1 Hj)) as Hm.
      unfold align_pos, ph_offset in *. lia. }
    split.
    + apply firstn_ext. intros p Hp. apply Hkeep. destruct Hwf. lia.
    + intros hd' Hhd'. injection Hhd' as <-.
      apply firstn_ext. intros p Hp. apply Hkeep. lia.
  - pose proof (effect_no_header filepath file page_size Hh) as H.
    fold o in H. unfold effect in H. injection H as _ H _. rewrite H.
    split; [reflexivity|discriminate].
Qed.

(** ** What success and failure tell *)

(** X5: when the operation returns success, the type field of every entry
    the header announces lies inside the file. *)
Theorem success_types_inside (filepath : string) (file : list byte)
    (page_size : Z) (hd : phdr_info) :
  header_of file = Some hd ->
  returned (align_elf_load_segments filepath file page_size) = true ->
  forall i, 0 <= i < e_phnum hd ->
    ph_offset hd i + 4 <= Z.of_nat (length file).
Proof.
  intros Hh Hok i Hi.
  destruct (Z_lt_le_dec (Z.of_nat (length file)) (ph_offset hd i + 4))
    as [Hlt|Hle]; [exfalso|exact Hle].
  pose proof (effect_header filepath file page_size hd Hh) as H.
  unfold effect in H.
  pose proof (run_entries_no_type hd page_size (header_of_wf file hd Hh)
                (range (e_phnum hd)) file i) as Hf.
  rewrite <- H in Hf. cbn [fst] in Hf.
  rewrite Hf in Hok; [discriminate| |lia|assumption].
  now apply in_range.
Qed.

Lemma success_types_inside_witness :
  ph_offset sample64_info 2 + 4 <= Z.of_nat (length (firstn 180 sample64)).
Proof.
  apply (success_types_inside lib_path (firstn 180 sample64) 16384
           sample64_info).
  - vm_compute. reflexivity.
  - vm_compute. reflexivity.
  - cbn. lia.
Defined.

(** What is printed, by the way the call ends. *)
Lemma printed_cases (filepath : string) (file : list byte)
    (page_size : Z) :
  let o := align_elf_load_segments filepath file page_size in
  (returned o = true /\ printed o = []) \/
  (returned o = false /\ firstn 4 file <> elf_magic /\
   printed o = [NotAnElfFile (basename filepath)]) \/
  (returned o = false /\ firstn 4 file = elf_magic /\
   exists e, printed o = [ErrorProcessing (basename filepath) e]).
Proof.
  unfold align_elf_load_segments, align_body, bind, f_read, print, lift, ret,
    raise.
  cbn [content position write_log stdout]. rewrite magic_slice.
  destruct (bytes_eqb (firstn 4 file) elf_magic) eqn:Em; cbn.
  - apply bytes_eqb_eq in Em.
    destruct (read_header _) as [e|hd].
    + right. right. cbn. repeat split; trivial. now exists e.
    + match goal with |- context [for_each ?l ?b ?m ?h] =>
        destruct (for_each_run hd page_size l m h) as (r & pos' & E & Hr);
        rewrite E end.
      cbn [content write_log stdout] in *.
      match type of Hr with if ?b then _ else _ => destruct b end.
      * destruct Hr as [m' ->]. left. destruct m'; split; reflexivity.
      * destruct Hr as [e ->]. right. right. cbn.
        repeat split; trivial. now exists e.
  - assert (Hne : firstn 4 file <> elf_magic)
      by (intros E; rewrite E in Em; discriminate).
    right. left. split; [reflexivity|]. split; [exact Hne|reflexivity].
Qed.

(** X6: the operation prints nothing when it returns success and exactly
    one line when it returns failure: the not-an-ELF line when the magic
    number is missing, the line of the exception caught otherwise; both name
    the file by the last component of its path. *)
Theorem one_line_on_failure (filepath : string) (file : list byte)
    (page_size : Z) :
  let o := align_elf_load_segments filepath file page_size in
  (returned o = true /\ printed o = []) \/
  (returned o = false /\ firstn 4 file <> elf_magic /\
   printed o = [NotAnElfFile (basename filepath)]) \/
  (returned o = false /\ firstn 4 file = elf_magic /\
   exists e, printed o = [ErrorProcessing (basename filepath) e]).
Proof.
  exact (printed_cases filepath file page_size).
Qed.


(** X7: a file with the magic number that is too short for its header
    (fewer than 46 bytes, or fewer than 58 for class 2) is reported with the
    exception of the first failing access: an index error below 6 bytes, a
    [struct.error] from 6 bytes on. *)
Theorem truncated_header_error (filepath : string) (file : list byte)
    (page_size : Z) :
  firstn 4 file = elf_magic ->
  (length file < 46)%nat \/
  (index file 4 = inr 2 /\ (length file < 58)%nat) ->
  printed (align_elf_load_segments filepath file page_size) =
  [ErrorProcessing (basename filepath)
     (if (length file <? 6)%nat then IndexError else StructError)].
Proof.
  intros Hm Hshort.
  unfold align_elf_load_segments, align_body, bind, f_read, print, lift, ret,
    raise.
  cbn [content position write_log stdout]. rewrite magic_slice, Hm.
  replace (bytes_eqb elf_magic elf_magic) with true by reflexivity.
  cbn [negb].
  destruct (read_header (bytes_at file 0 64)) as [e|hd] eqn:E.
  - apply read_header_error in E.
    rewrite bytes_at_0, length_firstn in E. revert E.
    destruct (Nat.ltb_spec (Nat.min 64 (length file)) 6);
      destruct (Nat.ltb_spec (length file) 6); intros ->;
      try reflexivity; lia.
  - exfalso. apply read_header_inv in E as (c & Hc & _ & Hlen).
    rewrite index_header in Hc by lia.
    rewrite bytes_at_0, length_firstn in Hlen.
    destruct Hshort as [H|[H4 H]].
    + destruct (c =? 2); lia.
    + rewrite H4 in Hc. injection Hc as <-.
      replace (2 =? 2) with true in Hlen by reflexivity. lia.
Qed.

Lemma truncated_header_error_witness :
  printed (align_elf_load_segments lib_path (firstn 5 sample64) 16384) =
  [ErrorProcessing (basename lib_path) IndexError] /\
  printed (align_elf_load_segments lib_path (firstn 40 sample64) 16384) =
  [ErrorProcessing (basename lib_path) StructError].
Proof.
  split.
  - apply (truncated_header_error lib_path (firstn 5 sample64) 16384).
    + reflexivity.
    + left. vm_compute. lia.
  - apply (truncated_header_error lib_path (firstn 40 sample64) 16384).
    + reflexivity.
    + left. vm_compute. lia.
Defined.

(** ** The exact writes of a successful run *)

Lemma range_NoDup (n : Z) : NoDup (range n).
Proof.
  unfold range. generalize (Z.to_nat n) as m. generalize 0%nat as a.
  intros a m. revert a. induction m as [|m IH]; intros a; cbn.
  - constructor.
  - constructor; [|apply IH]. intros Hx.
    apply in_map_iff in Hx as (k & Hk & Hin). apply in_seq in Hin. lia.
Qed.

Section ExactLog.

Variables (hd : phdr_info) (page_size : Z).
Hypothesis Hwf : wf_info hd.
Hypothesis Hdisj : entries_disjoint hd = true.
Hypothesis Hfmt : fst (p_align_fmt hd) = endian hd.

(** A round that does not raise writes exactly when its entry needs it. *)
Lemma entry_step_needs (c : list byte) (i : Z) :
  match entry_step hd page_size c i with
  | inl _ => True
  | inr w =>
      w = if needs_write hd page_size c i
          then Some (align_pos hd i, packed_target hd page_size)
          else None
  end.
Proof.
  unfold entry_step, needs_write, rbind.
  destruct (p_type_at hd c i) as [e|t]; [exact I|].
  destruct (t =? PT_LOAD); cbn.
  - destruct (p_align_at hd c i) as [e|a]; [exact I|].
    destruct (a =? page_size); cbn; [reflexivity|].
    destruct (pack (p_align_fmt hd) page_size) as [e|bs] eqn:Ep; [exact I|].
    apply pack_value in Ep as [-> _]. unfold packed_target.
    now rewrite Hfmt, <- (wf_align_size hd Hwf).
  - now destruct (p_align_at hd c i).
Qed.

Lemma needs_write_keeps (c : list byte) (k i : Z) (bs : list byte) :
  0 <= i -> i <> k -> 0 <= align_pos hd k ->
  (Z.to_nat (align_pos hd k) + length bs <= length c)%nat ->
  length bs = p_align_size hd ->
  needs_write hd page_size (write_at c (align_pos hd k) bs) i =
  needs_write hd page_size c i.
Proof.
  intros Hi Hik Hpos Hin Hl. unfold needs_write.
  rewrite (write_keeps_type hd Hwf Hdisj), (write_keeps_align hd Hwf Hdisj);
    trivial.
Qed.

Lemma run_entries_exact (l : list Z) (c : list byte) :
  NoDup l -> (forall j, In j l -> 0 <= j) ->
  fst (fst (run_entries hd page_size l c)) = true ->
  snd (run_entries hd page_size l c) =
  map (fun i => (align_pos hd i, packed_target hd page_size))
      (filter (needs_write hd page_size c) l).
Proof.
  intros Hnd. revert c.
  induction Hnd as [|k l Hk Hnd IH]; intros c Hpos; [reflexivity|].
  assert (Hpos' : forall j, In j l -> 0 <= j)
    by (intros j Hj; apply Hpos; now right).
  cbn [run_entries filter].
  pose proof (entry_step_cases hd page_size Hwf c k) as Hc.
  pose proof (entry_step_needs c k) as Hn.
  destruct (entry_step hd page_size c k) as [e|[[off bs]|]];
    [discriminate| |].
  - destruct Hc as (-> & _ & Hoff & Hin & Hl & _).
    destruct (needs_write hd page_size c k); [|discriminate].
    injection Hn as ->.
    specialize (IH (write_at c (align_pos hd k) (packed_target hd page_size))
                   Hpos').
    destruct (run_entries hd page_size l
                (write_at c (align_pos hd k) (packed_target hd page_size)))
      as [[b c'] w].
    cbn [fst snd map] in *. intros Hok. rewrite (IH Hok). do 2 f_equal.
    apply filter_ext_in. intros i Hi.
    apply needs_write_keeps; trivial; [now apply Hpos'| |lia].
    intros ->. contradiction.
  - destruct (needs_write hd page_size c k); [discriminate|].
    now apply IH.
Qed.

End ExactLog.

(** X8: when entries do not overlap and the operation returns success, its
    writes are, in table order, one write of the packed target at the
    alignment field of each entry that was loadable with another alignment
    in the file as it was, and no other. *)
Theorem writes_exact (filepath : string) (file : list byte) (page_size : Z)
    (hd : phdr_info) :
  header_of file = Some hd -> entries_disjoint hd = true ->
  let o := align_elf_load_segments filepath file page_size in
  returned o = true ->
  writes o =
  map (fun i => (align_pos hd i, packed_target hd page_size))
      (filter (needs_write hd page_size file) (range (e_phnum hd))).
Proof.
  intros Hh Hd o Hok.
  pose proof (header_of_wf file hd Hh) as Hwf.
  destruct (header_of_fields file hd Hh) as (_ & Hf & _).
  pose proof (effect_header filepath file page_size hd Hh) as H.
  fold o in H. unfold effect in H.
  pose proof (run_entries_exact hd page_size Hwf Hd Hf (range (e_phnum hd))
                file (range_NoDup _)) as He.
  rewrite <- H in He. cbn [fst snd] in He. apply He; [|assumption].
  intros j Hj. apply in_range in Hj. lia.
Qed.

Lemma writes_exact_witness :
  writes (align_elf_load_segments lib_path sample64 16384) =
  map (fun i => (align_pos sample64_info i,
                 packed_target sample64_info 16384))
      (filter (needs_write sample64_info 16384 sample64)
              (range (e_phnum sample64_info))).
Proof.
  apply (writes_exact lib_path sample64 16384 sample64_info).
  - vm_compute. reflexivity.
  - vm_compute. reflexivity.
  - vm_compute. reflexivity.
Defined.

(** ** One target after another *)

Ltac cases_of_tests :=
  repeat match goal with
  | |- context [(?a <=? ?b)%nat] => destruct (Nat.leb_spec a b)
  | |- context [(?a <? ?b)%nat] => destruct (Nat.ltb_spec a b)
  end.

(** Writes to ranges that are apart can be made in either order. *)
Lemma write_at_comm (c : list byte) (o1 o2 : Z) (b1 b2 : list byte) :
  (Z.to_nat o1 + length b1 <= length c)%nat ->
  (Z.to_nat o2 + length b2 <= length c)%nat ->
  (Z.to_nat o1 + length b1 <= Z.to_nat o2 \/
   Z.to_nat o2 + length b2 <= Z.to_nat o1)%nat ->
  write_at (write_at c o1 b1) o2 b2 = write_at (write_at c o2 b2) o1 b1.
Proof.
  intros H1 H2 Hd. apply nth_error_ext. intros p.
  rewrite !nth_error_write_at by (rewrite ?length_write_at; assumption).
  cases_of_tests; cbn [andb]; try reflexivity; lia.
Qed.

(** A write over a write of the same length leaves the second one only. *)
Lemma write_at_over (c : list byte) (o : Z) (b1 b2 : list byte) :
  length b1 = length b2 ->
  (Z.to_nat o + length b1 <= length c)%nat ->
  write_at (write_at c o b1) o b2 = write_at c o b2.
Proof.
  intros Hl H1. apply nth_error_ext. intros p.
  rewrite !nth_error_write_at
    by (rewrite ?length_write_at; rewrite <- ?Hl; assumption).
  rewrite <- Hl. cases_of_tests; cbn [andb]; try reflexivity; lia.
Qed.

Section LastTarget.

Variable hd : phdr_info.
Hypothesis Hwf : wf_info hd.
Hypothesis Hdisj : entries_disjoint hd = true.

Lemma align_pos_apart (j k : Z) :
  j <> k ->
  align_pos hd j + Z.of_nat (p_align_size hd) <= align_pos hd k \/
  align_pos hd k + Z.of_nat (p_align_size hd) <= align_pos hd j.
Proof.
  intros Hjk. unfold entries_disjoint in Hdisj. apply Z.leb_le in Hdisj.
  unfold align_pos. destruct Hwf.
  destruct (Z.lt_trichotomy j k) as [H|[H|H]]; [|contradiction|].
  - pose proof (ph_offset_step hd Hwf j k H). lia.
  - pose proof (ph_offset_step hd Hwf k j H). lia.
Qed.

Lemma step_bytes_length (t : Z) (c c1 : list byte) (i : Z) :
  step_bytes hd t c i = Some c1 -> length c1 = length c.
Proof.
  unfold step_bytes.
  pose proof (entry_step_cases hd t Hwf c i) as Hc.
  destruct (entry_step hd t c i) as [e|[[off bs]|]]; [discriminate| |].
  - destruct Hc as (_ & _ & _ & Hin & _). intros H. injection H as <-.
    now apply length_write_at.
  - intros H. now injection H as <-.
Qed.

(** A round on another entry does the same before and after a write into
    the alignment field of entry [k]. *)
Lemma step_bytes_write (t : Z) (c : list byte) (k j : Z) (x : list byte) :
  0 <= j -> j <> k -> 0 <= align_pos hd k ->
  (Z.to_nat (align_pos hd k) + length x <= length c)%nat ->
  length x = p_align_size hd ->
  step_bytes hd t (write_at c (align_pos hd k) x) j =
  option_map (fun c1 => write_at c1 (align_pos hd k) x)
             (step_bytes hd t c j).
Proof.
  intros Hj Hjk Hpos Hin Hl.
  rewrite !(step_bytes_spec hd t Hwf).
  rewrite (write_keeps_type hd Hwf Hdisj), (write_keeps_align hd Hwf Hdisj);
    trivial.
  destruct (p_type_at hd c j) as [e|ty]; [reflexivity|].
  destruct (ty =? PT_LOAD); [|reflexivity].
  destruct (p_align_at hd c j) as [e|a] eqn:Ea; [reflexivity|].
  destruct (pack (p_align_fmt hd) t) as [e|tb] eqn:Ep; [reflexivity|].
  cbn [option_map]. f_equal.
  apply read_at_inside in Ea as [Hoj Hinj]; [|apply Hwf|apply Hwf].
  pose proof (pack_length _ _ _ Ep) as Hlt.
  rewrite <- (wf_align_size hd Hwf) in Hlt.
  apply write_at_comm; [assumption|lia|].
  destruct (align_pos_apart j k Hjk); lia.
Qed.

(** So does the loop over entries other than [k]. *)
Lemma run_result_write (t : Z) (l : list Z) (c : list byte) (k : Z)
    (x : list byte) :
  ~ In k l -> (forall j, In j l -> 0 <= j) -> 0 <= align_pos hd k ->
  (Z.to_nat (align_pos hd k) + length x <= length c)%nat ->
  length x = p_align_size hd ->
  run_result hd t l (write_at c (align_pos hd k) x) =
  (fst (run_result hd t l c),
   write_at (snd (run_result hd t l c)) (align_pos hd k) x).
Proof.
  revert c. induction l as [|j l IH]; intros c Hk Hpos Hoff Hin Hl;
    [reflexivity|].
  rewrite !(run_result_cons hd t).
  rewrite step_bytes_write; trivial.
  - destruct (step_bytes hd t c j) as [c1|] eqn:Es; cbn [option_map];
      [|reflexivity].
    apply IH; trivial.
    + intros H. apply Hk. now right.
    + intros i Hi. apply Hpos. now right.
    + now rewrite (step_bytes_length t c c1 j Es).
  - apply Hpos. now left.
  - intros ->. apply Hk. now left.
Qed.

(** Running the loop for target [b] on what the loop for target [a] left
    gives what the loop for [b] gives at once. *)
Lemma run_result_last (a b : Z) (l : list Z) (c : list byte) :
  NoDup l -> (forall j, In j l -> 0 <= j) ->
  0 <= b < 2 ^ (8 * Z.of_nat (p_align_size hd)) ->
  run_result hd b l (snd (run_result hd a l c)) = run_result hd b l c.
Proof.
  intros Hnd. revert c.
  induction Hnd as [|k l Hk Hnd IH]; intros c Hpos Hb; [reflexivity|].
  assert (Hpos' : forall j, In j l -> 0 <= j)
    by (intros j Hj; apply Hpos; now right).
  assert (Hk0 : 0 <= k) by (apply Hpos; now left).
  assert (Hty : p_type_at hd (snd (run_result hd a l c)) k
                = p_type_at hd c k)
    by (unfold run_result; now apply run_entries_types).
  rewrite (run_result_cons hd a).
  destruct (step_bytes hd a c k) as [ca|] eqn:Ea; [|reflexivity].
  rewrite (step_bytes_spec hd a Hwf) in Ea.
  destruct (p_type_at hd c k) as [e|ty] eqn:Et; [discriminate|].
  destruct (ty =? PT_LOAD) eqn:Eload.
  - destruct (p_align_at hd c k) as [e|cur] eqn:Eal; [discriminate|].
    destruct (pack (p_align_fmt hd) a) as [e|ab] eqn:Epa; [discriminate|].
    injection Ea as <-.
    pose proof Eal as Hin.
    apply read_at_inside in Hin as [Hoff Hin]; [|apply Hwf|apply Hwf].
    pose proof (pack_length _ _ _ Epa) as Hla.
    rewrite <- (wf_align_size hd Hwf) in Hla.
    assert (Hlen : length (snd (run_result hd a l c)) = length c)
      by (unfold run_result; now apply run_entries_length).
    rewrite (run_result_write a l c k ab); trivial; [|lia|lia]. cbn [snd].
    rewrite !(run_result_cons hd b), !(step_bytes_spec hd b Hwf).
    rewrite (write_keeps_type hd Hwf Hdisj); trivial; [|lia|lia].
    rewrite Hty, Et, Eload.
    destruct (read_at_length c
                (write_at (snd (run_result hd a l c)) (align_pos hd k) ab)
                (align_pos hd k) (p_align_size hd) (p_align_fmt hd) cur)
      as [v Ev]; [rewrite length_write_at; lia|exact Eal|].
    fold (p_align_at hd
            (write_at (snd (run_result hd a l c)) (align_pos hd k) ab) k)
      in Ev.
    rewrite Ev, Eal.
    rewrite pack_in_range by (now rewrite <- (wf_align_size hd Hwf)).
    rewrite <- (wf_align_size hd Hwf).
    set (bb := int_to_bytes (fst (p_align_fmt hd)) (p_align_size hd) b).
    assert (Hlb : length bb = p_align_size hd)
      by apply length_int_to_bytes.
    rewrite write_at_over by lia.
    rewrite <- (IH (write_at c (align_pos hd k) bb) Hpos' Hb).
    rewrite (run_result_write a l c k bb); trivial; lia.
  - injection Ea as <-.
    rewrite !(run_result_cons hd b), !(step_bytes_spec hd b Hwf).
    rewrite Hty, Et, Eload. now apply IH.
Qed.

End LastTarget.

(** X9: when entries do not overlap, no alignment field lies in the first
    64 bytes and the target fits the alignment field, the operation run
    after a run with any other target leaves the file, and returns, what it
    leaves and returns when run at once on the original file: the last
    target wins. *)
Theorem last_target_wins (filepath : string) (file : list byte)
    (first_size page_size : Z) (hd : phdr_info) :
  header_of file = Some hd ->
  entries_disjoint hd = true -> table_after_header hd = true ->
  0 <= page_size < 2 ^ (8 * Z.of_nat (p_align_size hd)) ->
  let before := align_elf_load_segments filepath file first_size in
  let o := align_elf_load_segments filepath (file_after before) page_size in
  let direct := align_elf_load_segments filepath file page_size in
  file_after o = file_after direct /\ returned o = returned direct.
Proof.
  intros Hh Hd Ht Hr before o direct.
  pose proof (header_of_wf file hd Hh) as Hwf.
  pose proof (header_kept filepath file first_size hd Hh Ht) as Hh2.
  fold before in Hh2.
  pose proof (effect_header filepath file first_size hd Hh) as H1.
  pose proof (effect_header filepath (file_after before) page_size hd Hh2)
    as H2.
  pose proof (effect_header filepath file page_size hd Hh) as H3.
  fold before in H1. fold o in H2. fold direct in H3.
  unfold effect in H1, H2, H3.
  assert (Hpos : forall j, In j (range (e_phnum hd)) -> 0 <= j)
    by (intros j Hj; apply in_range in Hj; lia).
  pose proof (run_result_last hd Hwf Hd first_size page_size
                (range (e_phnum hd)) file (range_NoDup _) Hpos Hr) as Hl.
  unfold run_result in Hl. rewrite <- H1, <- H3 in Hl.
  cbn [fst snd] in Hl. rewrite <- H2 in Hl. cbn [fst] in Hl.
  injection Hl as E1 E2. now split.
Qed.

Lemma last_target_wins_witness :
  let before := align_elf_load_segments lib_path sample64 65536 in
  let o := align_elf_load_segments lib_path (file_after before) 16384 in
  let direct := align_elf_load_segments lib_path sample64 16384 in
  file_after o = file_after direct /\ returned o = returned direct.
Proof.
  apply (last_target_wins lib_path sample64 65536 16384 sample64_info).
  - vm_compute. reflexivity.
  - vm_compute. reflexivity.
  - vm_compute. reflexivity.
  - cbn. lia.
Defined.

(** ** The command line *)

(** What a call on a header with alignment fields apart leaves, when it
    returns success. *)
Lemma aligned_after (filepath : string) (file : list byte) (page_size : Z)
    (hd : phdr_info) :
  header_of file = Some hd -> align_fields_disjoint hd = true ->
  returned (align_elf_load_segments filepath file page_size) = true ->
  forall i, 0 <= i < e_phnum hd ->
    p_type_at hd
      (file_after (align_elf_load_segments filepath file page_size)) i
    = inr PT_LOAD ->
    p_align_at hd
      (file_after (align_elf_load_segments filepath file page_size)) i
    = inr page_size.
Proof.
  intros Hh Hd Hok i Hi Ht.
  pose proof (effect_header filepath file page_size hd Hh) as H.
  unfold effect in H.
  pose proof (run_entries_aligned hd page_size (header_of_wf file hd Hh) Hd
                (range (e_phnum hd)) file (range_sorted _)) as Hal.
  rewrite <- H in Hal. cbn [fst snd] in Hal.
  apply Hal; trivial.
  - intros j Hj. apply in_range in Hj. lia.
  - now apply in_range.
Qed.

Lemma length_after (filepath : string) (file : list byte) (page_size : Z) :
  length (file_after (align_elf_load_segments filepath file page_size))
  = length file.
Proof.
  destruct (header_of file) as [hd|] eqn:Hh.
  - pose proof (effect_header filepath file page_size hd Hh) as H.
    unfold effect in H.
    pose proof (run_entries_length hd page_size (header_of_wf file hd Hh)
                  (range (e_phnum hd)) file) as Hl.
    now rewrite <- H in Hl.
  - pose proof (effect_no_header filepath file page_size Hh) as H.
    unfold effect in H. injection H as _ H _. now rewrite H.
Qed.

(** A call that returns success found a header. *)
Lemma success_header (filepath : string) (file : list byte) (page_size : Z) :
  returned (align_elf_load_segments filepath file page_size) = true ->
  exists hd, header_of file = Some hd.
Proof.
  intros Hok. destruct (header_of file) as [hd|] eqn:Hh; [now exists hd|].
  pose proof (effect_no_header filepath file page_size Hh) as H.
  unfold effect in H. injection H as H _ _. congruence.
Qed.

(** The second of two calls with one target, when no alignment field lies in
    the first 64 bytes. *)
Lemma second_call (filepath : string) (file : list byte) (page_size : Z) :
  header_apart file = true ->
  let o1 := align_elf_load_segments filepath file page_size in
  let o2 := align_elf_load_segments filepath (file_after o1) page_size in
  returned o2 = returned o1 /\ file_after o2 = file_after o1.
Proof.
  intros Hsep o1 o2. unfold header_apart in Hsep.
  destruct (header_of file) as [hd|] eqn:Hh.
  - pose proof (header_of_wf file hd Hh) as Hwf.
    pose proof (effect_header filepath file page_size hd Hh) as H1.
    fold o1 in H1. unfold effect in H1.
    assert (Hpos : forall j, In j (range (e_phnum hd)) -> 0 <= j)
      by (intros j Hj; apply in_range in Hj; lia).
    pose proof (run_result_again hd page_size Hwf (range (e_phnum hd)) file
                  (range_sorted _) Hpos) as Hag.
    unfold run_result in Hag. rewrite <- H1 in Hag. cbn [fst snd] in Hag.
    pose proof (header_kept filepath file page_size hd Hh Hsep) as Hh2.
    fold o1 in Hh2.
    pose proof (effect_header filepath (file_after o1) page_size hd Hh2)
      as H2.
    fold o2 in H2. unfold effect in H2. rewrite <- H2 in Hag.
    cbn [fst] in Hag. injection Hag as E1 E2. now split.
  - pose proof (effect_no_header filepath file page_size Hh) as H1.
    fold o1 in H1. unfold effect in H1. injection H1 as E1 E2 E3.
    subst o2. rewrite E2. fold o1. now split.
Qed.

Lemma fs_store_same (fs : filesystem) (path : string) (data : list byte) :
  fs_store fs path data path = Some (RegularFile data).
Proof.
  unfold fs_store. now rewrite String.eqb_refl.
Qed.

Lemma fs_store_other (fs : filesystem) (path q : string) (data : list byte) :
  q <> path -> fs_store fs path data q = fs q.
Proof.
  intros H. unfold fs_store. apply String.eqb_neq in H. now rewrite H.
Qed.

Lemma nth_argv (argv : list string) :
  (length argv <? 2)%nat = false ->
  nth_error argv 1 = Some (nth 1 argv EmptyString).
Proof.
  intros H. apply Nat.ltb_ge in H.
  destruct argv as [|a0 [|a1 rest]]; cbn in *; try lia. reflexivity.
Qed.

(** X10: the process exits with status 0 only when its first argument names
    a regular file in which the script found an ELF header; it has then
    printed nothing, the file has kept its length, and, alignment fields
    being apart, every loadable entry of the file it leaves has alignment
    16384, the default page size. *)
Theorem main_exit_zero (argv : list string) (fs : filesystem) :
  fst (fst (main argv fs)) = 0 ->
  exists filepath data data' hd,
    nth_error argv 1 = Some filepath /\
    fs filepath = Some (RegularFile data) /\
    header_of data = Some hd /\
    snd (main argv fs) = [] /\
    snd (fst (main argv fs)) filepath = Some (RegularFile data') /\
    length data' = length data /\
    (align_fields_disjoint hd = true ->
     forall i, 0 <= i < e_phnum hd ->
       p_type_at hd data' i = inr PT_LOAD ->
       p_align_at hd data' i = inr 16384).
Proof.
  unfold main.
  destruct (length argv <? 2)%nat eqn:Hlen; [discriminate|].
  apply nth_argv in Hlen. set (filepath := nth 1 argv EmptyString) in *.
  unfold path_exists, align_path.
  destruct (fs filepath) as [[data|]|] eqn:Hfs; cbn; try discriminate.
  destruct (returned (align_elf_load_segments filepath data
                        default_page_size)) eqn:Hok; [|discriminate].
  intros _.
  destruct (success_header filepath data default_page_size Hok) as [hd Hh].
  exists filepath, data,
    (file_after (align_elf_load_segments filepath data default_page_size)),
    hd.
  split; [assumption|]. split; [assumption|]. split; [assumption|].
  split.
  { destruct (printed_cases filepath data default_page_size)
      as [[_ Hp]|[[Hf _]|[Hf _]]]; [now rewrite Hp|congruence|congruence]. }
  split; [apply fs_store_same|]. split; [apply length_after|].
  intros Hd. now apply aligned_after.
Qed.

Lemma main_exit_zero_witness :
  exists filepath data data' hd,
    nth_error [script_name; lib_path] 1 = Some filepath /\
    sample_disk filepath = Some (RegularFile data) /\
    header_of data = Some hd /\
    snd (main [script_name; lib_path] sample_disk) = [] /\
    snd (fst (main [script_name; lib_path] sample_disk)) filepath
    = Some (RegularFile data') /\
    length data' = length data /\
    (align_fields_disjoint hd = true ->
     forall i, 0 <= i < e_phnum hd ->
       p_type_at hd data' i = inr PT_LOAD ->
       p_align_at hd data' i = inr 16384).
Proof.
  apply (main_exit_zero [script_name; lib_path] sample_disk).
  vm_compute. reflexivity.
Defined.


(** X12: the process exits with status 1, prints one line and leaves every
    file as it was when it has no argument, when the path does not exist,
    when it is a directory, and when it is a file without the magic
    number. *)
Theorem main_rejects (argv : list string) (fs : filesystem) :
  (length argv < 2)%nat \/
  (exists p, nth_error argv 1 = Some p /\
     (fs p = None \/ fs p = Some Directory \/
      exists data, fs p = Some (RegularFile data) /\
                   firstn 4 data <> elf_magic)) ->
  fst (fst (main argv fs)) = 1 /\
  (forall q, snd (fst (main argv fs)) q = fs q) /\
  exists ln, snd (main argv fs) = [ln].
Proof.
  intros H. unfold main.
  destruct (length argv <? 2)%nat eqn:Hlen.
  { cbn. repeat split. now exists UsageLine. }
  pose proof (nth_argv argv Hlen) as Hnth.
  apply Nat.ltb_ge in Hlen.
  destruct H as [H|(p & Hp & H)]; [lia|].
  rewrite Hnth in Hp. injection Hp as Hp. rewrite Hp.
  unfold path_exists, align_path.
  destruct H as [H|[H|(data & H & Hm)]]; rewrite H; cbn.
  - repeat split. eexists. reflexivity.
  - repeat split. eexists. reflexivity.
  - destruct (printed_cases p data default_page_size)
      as [[Hr Hpr]|[(Hr & _ & Hpr)|(_ & Hf & _)]]; [| |contradiction].
    + exfalso.
      destruct (success_header p data default_page_size Hr) as [hd Hh].
      apply header_of_inv in Hh as [Hmagic _]. contradiction.
    + rewrite Hr, Hpr. cbn. split; [reflexivity|]. split.
      * intros q. destruct (String.eqb_spec q p) as [->|Hq].
        -- rewrite fs_store_same, H. do 2 f_equal.
           assert (Hn : header_of data = None).
           { destruct (header_of data) eqn:E; [|reflexivity].
             apply header_of_inv in E as [E _]. contradiction. }
           pose proof (effect_no_header p data default_page_size Hn) as He.
           unfold effect in He. now injection He.
        -- now apply fs_store_other.
      * eexists. reflexivity.
Qed.

Lemma main_rejects_witness :
  fst (fst (main [script_name; "notes.txt"%string] sample_disk)) = 1 /\
  (forall q,
     snd (fst (main [script_name; "notes.txt"%string] sample_disk)) q
     = sample_disk q) /\
  exists ln, snd (main [script_name; "notes.txt"%string] sample_disk) = [ln].
Proof.
  apply (main_rejects [script_name; "notes.txt"%string] sample_disk).
  right. exists "notes.txt"%string. split; [reflexivity|].
  right. right. exists (zeros 100). split; [reflexivity|discriminate].
Defined.

(** X13: run twice with the same arguments, the process exits the second
    time with the status of the first and leaves every file as the first run
    left it, when no alignment field of the file lies in its first 64
    bytes. *)
Theorem main_twice (argv : list string) (fs : filesystem) :
  (forall p data, nth_error argv 1 = Some p ->
     fs p = Some (RegularFile data) -> header_apart data = true) ->
  let first := main argv fs in
  let second := main argv (snd (fst first)) in
  fst (fst second) = fst (fst first) /\
  (forall q, snd (fst second) q = snd (fst first) q).
Proof.
  intros Hsep. unfold main.
  destruct (length argv <? 2)%nat eqn:Hlen; [split; reflexivity|].
  pose proof (nth_argv argv Hlen) as Hnth.
  set (filepath := nth 1 argv EmptyString) in *.
  unfold path_exists, align_path.
  destruct (fs filepath) as [[data|]|] eqn:Hfs; cbn;
    rewrite ?Hfs; cbn; try (split; reflexivity).
  rewrite fs_store_same. cbn.
  destruct (second_call filepath data default_page_size
              (Hsep filepath data Hnth Hfs)) as [E1 E2].
  rewrite E1, E2. split; [reflexivity|].
  intros q. destruct (String.eqb_spec q filepath) as [->|Hq].
  - now rewrite !fs_store_same.
  - now rewrite !fs_store_other.
Qed.

Lemma main_twice_witness :
  let first := main [script_name; lib_path] sample_disk in
  let second := main [script_name; lib_path] (snd (fst first)) in
  fst (fst second) = fst (fst first) /\
  (forall q, snd (fst second) q = snd (fst first) q).
Proof.
  apply (main_twice [script_name; lib_path] sample_disk).
  intros p data Hp Hd. cbn in Hp. injection Hp as <-.
  vm_compute in Hd. injection Hd as <-. vm_compute. reflexivity.
Defined.
